(** * family_C++.cpp: a family roster printed through virtual dispatch

    The program builds four heap-allocated [Person] objects (a [Mother], a
    [Father], a [Daughter] and a [Son]), stores their addresses in a
    [vector<Person*>], prints one line per member and then the mean of the
    ages.

    The embedding keeps the shape of the source: objects live in a heap
    indexed by addresses, [cout] is the text written so far, and every
    function of the source is a computation over that state which is
    undefined ([None]) where the C++ program dereferences an address that
    holds no object. *)

From Stdlib Require Import ZArith QArith Qabs Qpower String Ascii List Lia.
From Stdlib Require Import DecimalString SpecFloat.
From stdpp Require Import gmap strings.

Local Open Scope Z_scope.

(** * The program

    ** [int]: 32-bit two's complement *)

Module Int32.

Definition modulus : Z := 2 ^ 32.
Definition half_modulus : Z := 2 ^ 31.
Definition min_signed : Z := - half_modulus.
Definition max_signed : Z := half_modulus - 1.

Definition in_range (z : Z) : Prop := min_signed <= z <= max_signed.

(** The value an [int] holds after a result [z] is stored in it.  The C++
    standard leaves signed overflow undefined; this is what the two's
    complement hardware the program runs on computes. *)
Definition wrap (z : Z) : Z := (z + half_modulus) mod modulus - half_modulus.

(** [a + b] on [int], as the machine computes it. *)
Definition add (a b : Z) : Z := wrap (a + b).

End Int32.

(** ** [double]: IEEE-754 binary64 *)

Module Double.

Definition prec : Z := 53.
Definition emax : Z := 1024.

(** Conversion of an integer to [double], rounding to nearest-even when the
    integer has more than 53 significant bits.  Both [static_cast<double>]
    on an [int] and the implicit conversion of a [size_t] operand are this
    conversion. *)
Definition of_Z (z : Z) : spec_float := binary_normalize prec emax z 0 false.

(** [x / y] on [double], in the default rounding mode. *)
Definition div (x y : spec_float) : spec_float := SFdiv prec emax x y.

Definition is_nan (x : spec_float) : bool :=
  match x with S754_nan => true | _ => false end.

(** The rational number a [double] stands for; none for NaN and the
    infinities. *)
Definition value (x : spec_float) : option Q :=
  match x with
  | S754_zero _ => Some 0%Q
  | S754_finite sx m e => Some (inject_Z (cond_Zopp sx (Z.pos m)) * 2 ^ e)%Q
  | _ => None
  end.

(** The unit roundoff of binary64, [2^-53]. *)
Definition unit_roundoff : Q := 1 # (2 ^ 53).

(** [d] is a finite [double] within relative error [2^-53] of [x]. *)
Definition approximates (d : spec_float) (x : Q) : Prop :=
  exists v, value d = Some v /\ (Qabs (v - x) <= unit_roundoff * Qabs x)%Q.

(** Two names for intermediate results of the library's algorithms, used to
    state facts about them.  [finish] is the second half of
    [binary_round_aux]: the rounded mantissa is renormalised and checked
    against overflow. *)
Definition finish (sx : bool) (m e : Z) : spec_float :=
  let '(mrs, e') := shr_fexp prec emax m e loc_Exact in
  match shr_m mrs with
  | Z0 => S754_zero sx
  | Zpos m' => if e' <=? emax - prec then S754_finite sx m' e'
               else S754_infinity sx
  | _ => S754_nan
  end.

(** [normal] is the representation of a positive integer below [2^53]: the
    mantissa shifted left until it has 53 bits. *)
Definition normal (sx : bool) (m : positive) : spec_float :=
  let d := Z.pos (digits2_pos m) in
  S754_finite sx (Z.to_pos (Z.pos m * 2 ^ (53 - d))) (d - 53).

End Double.

(** ** Text *)

(** [operator<<(int)] in the stream's default state: decimal digits, a
    leading minus sign for negative values, nothing else. *)
Definition string_of_int (z : Z) : string := NilZero.string_of_int (Z.to_int z).

(** The character [endl] inserts. *)
Definition newline : string := String (ascii_of_nat 10) EmptyString.

(** ** Objects *)

(** The data members of [class Person].  The four derived classes add no
    member and override nothing, so an object of any of them is its [Person]
    subobject, and the virtual call [member->display()] always resolves to
    [Person::display]. *)
Record Person : Type := new_Person { type : string; name : string; age : Z }.

(** [Person::Person(string t, string n, int a) : type(t), name(n), age(a)] *)
Definition Person_ctor (t n : string) (a : Z) : Person :=
  {| type := t; name := n; age := a |}.

Definition Mother (n : string) (a : Z) : Person := Person_ctor "Mother" n a.
Definition Father (n : string) (a : Z) : Person := Person_ctor "Father" n a.
Definition Daughter (n : string) (a : Z) : Person := Person_ctor "Daughter" n a.
Definition Son (n : string) (a : Z) : Person := Person_ctor "Son" n a.

(** ** Program state *)

(** A [Person*]: an address, [0] being the null pointer. *)
Definition ptr : Type := N.
Definition nullptr : ptr := 0%N.

Record state : Type := mk_state {
  heap : gmap N Person;   (* the live objects, by address *)
  cout : string           (* the characters written to standard output *)
}.

Definition initial_state : state := {| heap := ∅; cout := EmptyString |}.

(** Computations of the program: [None] is undefined behaviour. *)
Definition M (A : Type) : Type := state -> option (A * state).

Global Instance M_ret : MRet M := fun A (a : A) (st : state) => Some (a, st).

Global Instance M_bind : MBind M :=
  fun A B (k : A -> M B) (m : M A) (st : state) =>
    match m st with
    | Some (a, st') => k a st'
    | None => None
    end.

(** Reading the object [p] points to. *)
Definition load (p : ptr) : M Person :=
  fun st => match heap st !! p with
            | Some o => Some (o, st)
            | None => None
            end.

(** [new T(...)]: the object is placed at an address that is neither null nor
    occupied. *)
Definition new (o : Person) : M ptr :=
  fun st =>
    let p := fresh ({[nullptr]} ∪ dom (heap st)) in
    Some (p, {| heap := <[p := o]> (heap st); cout := cout st |}).

(** [delete p]: nothing for a null pointer, the object's storage is released
    otherwise.  ([Person] has no virtual destructor, so the standard leaves
    [delete] through a [Person*] to a derived object undefined; the derived
    classes add nothing to destroy, and the storage is simply released.) *)
Definition delete_ (p : ptr) : M unit :=
  fun st =>
    if decide (p = nullptr) then Some (tt, st)
    else match heap st !! p with
         | Some _ =>
             Some (tt, {| heap := delete p (heap st); cout := cout st |})
         | None => None
         end.

(** [cout << s] for a string. *)
Definition put (s : string) : M unit :=
  fun st => Some (tt, {| heap := heap st; cout := cout st +:+ s |}).

(** [cout << n] for an [int]. *)
Definition put_int (n : Z) : M unit := put (string_of_int n).

(** [cout << endl] *)
Definition endl : M unit := put newline.

(** A range-based [for] over a vector: the body runs once per element, first
    to last. *)
Fixpoint for_each {A} (v : list A) (body : A -> M unit) : M unit :=
  match v with
  | [] => mret tt
  | x :: v' => body x ;; for_each v' body
  end.

(** A range-based [for] whose body updates one local variable [acc]. *)
Fixpoint for_each_acc {A B} (v : list A) (acc : B) (body : B -> A -> M B)
    : M B :=
  match v with
  | [] => mret acc
  | x :: v' => acc' ← body acc x; for_each_acc v' acc' body
  end.

(** ** Member functions of [Person] *)

(** [virtual void display() const] *)
Definition display (this : ptr) : M unit :=
  self ← load this;
  put "Type: " ;; put (type self) ;;
  put ", Name: " ;; put (name self) ;;
  put ", Age: " ;; put_int (age self) ;; endl.

(** [int getAge() const] *)
Definition getAge (this : ptr) : M Z :=
  self ← load this; mret (age self).

(** ** [displayFamily] and [main] *)

(** The body of the second loop, [totalAge += member->getAge()], as the new
    value of [totalAge]. *)
Definition add_age (totalAge : Z) (member : ptr) : M Z :=
  a ← getAge member; mret (Int32.add totalAge a).

Section Program.

(** [operator<<(double)]: the text the C++ library produces for a [double]
    in the stream's default state.  It belongs to the library, not to this
    program, and no property below depends on its choice. *)
Variable string_of_double : spec_float -> string.

(** [cout << d] for a [double]. *)
Definition put_double (d : spec_float) : M unit := put (string_of_double d).

(** The first loop of [displayFamily] with its header line: the program's
    rendering of the roster. *)
Definition renderAll (family : list ptr) : M unit :=
  put "Family Members:" ;; endl ;;
  for_each family (fun member => display member).

(** The second loop of [displayFamily]: the local [int totalAge]. *)
Definition totalAge (family : list ptr) : M Z :=
  for_each_acc family 0 add_age.

(** The local [double averageAge]:
    [static_cast<double>(totalAge) / family.size()]. *)
Definition averageAge (family : list ptr) : M spec_float :=
  totalAge ← totalAge family;
  mret (Double.div (Double.of_Z totalAge)
                   (Double.of_Z (Z.of_nat (length family)))).

(** [void displayFamily(const vector<Person*>& family)] *)
Definition displayFamily (family : list ptr) : M unit :=
  renderAll family ;;
  averageAge ← averageAge family;
  put "Average Age: " ;; put_double averageAge ;; endl.

(** [vector::push_back] *)
Definition push_back (v : list ptr) (p : ptr) : list ptr := v ++ [p].

(** The roster [main] builds: its first five statements. *)
Definition main_family : M (list ptr) :=
  let family := [] in
  p ← new (Mother "Alice" 45); let family := push_back family p in
  p ← new (Father "Bob" 48); let family := push_back family p in
  p ← new (Daughter "Charlotte" 15); let family := push_back family p in
  p ← new (Son "David" 12); let family := push_back family p in
  mret family.

(** [int main()] *)
Definition main : M Z :=
  family ← main_family;
  displayFamily family ;;
  for_each family (fun member => delete_ member) ;;
  mret 0.

End Program.

(** The last loop of [main], [for (auto& member : family) delete member;]:
    [main] is [main_family], [displayFamily], this loop and [return 0]. *)
Definition release (family : list ptr) : M unit :=
  for_each family (fun member => delete_ member).

(** ** The roster as a sequence of members *)

(** The objects a vector of pointers designates, in the vector's order;
    [None] when some element points to no object. *)
Fixpoint members (h : gmap N Person) (family : list ptr)
    : option (list Person) :=
  match family with
  | [] => Some []
  | p :: family' =>
      match h !! p, members h family' with
      | Some o, Some os => Some (o :: os)
      | _, _ => None
      end
  end.

(** The exact sum of a sequence of ages, folded left to right. *)
Definition sum_ages (ages : list Z) : Z := fold_left Z.add ages 0.

(** The text of one member's line, without its end of line. *)
Definition describe (p : Person) : string :=
  "Type: " +:+ type p +:+ ", Name: " +:+ name p +:+ ", Age: "
  +:+ string_of_int (age p).

(** Each string of a sequence followed by an end of line. *)
Fixpoint lines (l : list string) : string :=
  match l with
  | [] => EmptyString
  | s :: l' => s +:+ newline +:+ lines l'
  end.

(** The quotient [displayFamily] computes from the [int] total and the member
    count: [static_cast<double>(total) / count]. *)
Definition mean (total : Z) (count : nat) : spec_float :=
  Double.div (Double.of_Z total) (Double.of_Z (Z.of_nat count)).

(** ** The operations a client of the program can perform

    The public members of [Person] and its derived classes, those the source
    declares and those the language declares for it, with [displayFamily].
    Constructors and the destructor are reached through [new] and
    [delete]. *)

Global Instance Person_eq_dec : EqDecision Person.
Proof. solve_decision. Defined.

(** Overwriting the members of the live object [p] points to. *)
Definition store (p : ptr) (o : Person) : M unit :=
  fun st => match heap st !! p with
            | Some _ =>
                Some (tt, {| heap := <[p := o]> (heap st); cout := cout st |})
            | None => None
            end.

(** [class Person] declares no copy or move operation and no destructor, so
    the language declares public ones for it, memberwise.  The copy
    assignment [*p = *q]: *)
Definition copy_assign (p q : ptr) : M unit :=
  other ← load q; store p other.

(** What a move leaves in its source: the [int] is copied, and the two
    strings hold values the standard leaves unspecified, [t] and [n] here. *)
Definition moved_from (o : Person) (t n : string) : Person :=
  {| type := t; name := n; age := age o |}.

(** The move assignment [*p = std::move( *q)]. *)
Definition move_assign (p q : ptr) (t n : string) : M unit :=
  other ← load q;
  store q (moved_from other t n) ;;
  if decide (p = q) then mret tt else store p other.

(** The move construction [new T(std::move( *q))]. *)
Definition move_new (q : ptr) (t n : string) : M ptr :=
  other ← load q;
  store q (moved_from other t n) ;;
  new other.

Inductive op : Type :=
| OpNew (o : Person)                  (* [new T(n, a)], [new T(o)] *)
| OpDisplay (p : ptr)                 (* [p->display()] *)
| OpGetAge (p : ptr)                  (* [p->getAge()] *)
| OpDisplayFamily (family : list ptr) (* [displayFamily(family)] *)
| OpDelete (p : ptr)                  (* [delete p] *)
| OpCopyAssign (p q : ptr)            (* [*p = *q] *)
| OpMoveAssign (p q : ptr) (t n : string)  (* [*p = std::move( *q)] *)
| OpMoveNew (q : ptr) (t n : string). (* [new T(std::move( *q))] *)

Global Instance op_eq_dec : EqDecision op.
Proof. solve_decision. Defined.

Definition exec (string_of_double : spec_float -> string) (o : op) : M unit :=
  match o with
  | OpNew o => new o ;; mret tt
  | OpDisplay p => display p
  | OpGetAge p => getAge p ;; mret tt
  | OpDisplayFamily family => displayFamily string_of_double family
  | OpDelete p => delete_ p
  | OpCopyAssign p q => copy_assign p q
  | OpMoveAssign p q t n => move_assign p q t n
  | OpMoveNew q t n => move_new q t n ;; mret tt
  end.

(** Whether an operation ends the lifetime of the object at [p] or overwrites
    its members: the deletion of [p], an assignment to [*p], a move from
    [*p]. *)
Definition writes (o : op) (p : ptr) : bool :=
  match o with
  | OpDelete q => bool_decide (q = p)
  | OpCopyAssign q _ => bool_decide (q = p)
  | OpMoveAssign q r _ _ => bool_decide (q = p) || bool_decide (r = p)
  | OpMoveNew r _ _ => bool_decide (r = p)
  | _ => false
  end.

(** The four classes, each with the role string its constructor passes to
    [Person]'s. *)
Definition variants : list ((string -> Z -> Person) * string) :=
  [(Mother, "Mother"); (Father, "Father"); (Daughter, "Daughter");
   (Son, "Son")].

(** ** Sample rosters *)

(** The roster of [main], at four consecutive addresses. *)
Definition driver_family : list ptr := [1%N; 2%N; 3%N; 4%N].

Definition driver_members : list Person :=
  [Mother "Alice" 45; Father "Bob" 48; Daughter "Charlotte" 15; Son "David" 12].

Definition driver_state : state :=
  {| heap := list_to_map (zip driver_family driver_members);
     cout := EmptyString |}.

(** Two members whose ages are valid [int]s and whose sum is not. *)
Definition overflow_family : list ptr := [1%N; 2%N].

Definition overflow_members : list Person :=
  [Father "Bob" 2147483647; Son "David" 1].

Definition overflow_state : state :=
  {| heap := list_to_map (zip overflow_family overflow_members);
     cout := EmptyString |}.

(** The text of the only [double] the sample runs print. *)
Definition sample_string_of_double : spec_float -> string := fun _ => "30".

(** A client's session on the roster of [main]. *)
Definition sample_session : list op :=
  [OpDisplay 1%N; OpNew (Son "Eve" 3); OpGetAge 2%N;
   OpDisplayFamily driver_family; OpCopyAssign 3%N 2%N;
   OpMoveAssign 2%N 4%N EmptyString EmptyString; OpDelete 4%N].

(** * Properties

    ** Text *)

Lemma string_app_assoc (s1 s2 s3 : string) :
  (s1 +:+ s2) +:+ s3 = s1 +:+ (s2 +:+ s3).
Proof.
  induction s1 as [|c s1 IH]; [reflexivity |].
  change (String c ((s1 +:+ s2) +:+ s3) = String c (s1 +:+ (s2 +:+ s3))).
  now rewrite IH.
Qed.

Lemma string_app_nil_r (s : string) : s +:+ EmptyString = s.
Proof.
  induction s as [|c s IH]; [reflexivity |].
  change (String c (s +:+ EmptyString) = String c s). now rewrite IH.
Qed.

Example string_of_int_samples :
  string_of_int 45 = "45" /\ string_of_int 0 = "0" /\
  string_of_int (-2147483648) = "-2147483648".
Proof. repeat split. Qed.

Example describe_sample :
  describe (Daughter "Charlotte" 15)
  = "Type: Daughter, Name: Charlotte, Age: 15".
Proof. reflexivity. Qed.

(** ** [int] arithmetic *)

Module Int32Facts.
Import Int32.

Lemma wrap_range z : in_range (wrap z).
Proof.
  unfold in_range, wrap, min_signed, max_signed.
  assert (H : 0 <= (z + half_modulus) mod modulus < modulus)
    by (apply Z.mod_pos_bound; reflexivity).
  unfold modulus, half_modulus in *. lia.
Qed.

Lemma wrap_id z : in_range z -> wrap z = z.
Proof.
  unfold in_range, wrap, min_signed, max_signed, modulus, half_modulus.
  intros H. rewrite Z.mod_small; lia.
Qed.

Lemma wrap_fixed z : wrap z = z -> in_range z.
Proof. intros H. rewrite <- H. apply wrap_range. Qed.

Lemma wrap_congruent z : (wrap z - z) mod modulus = 0.
Proof.
  unfold wrap.
  rewrite (Z.mod_eq (z + half_modulus) modulus) by (unfold modulus; lia).
  replace (z + half_modulus - modulus * ((z + half_modulus) / modulus)
           - half_modulus - z)
    with ((- ((z + half_modulus) / modulus)) * modulus) by ring.
  apply Z.mod_mul. unfold modulus; lia.
Qed.

Lemma wrap_add_l a b : wrap (wrap a + b) = wrap (a + b).
Proof.
  unfold wrap.
  replace ((a + half_modulus) mod modulus - half_modulus + b + half_modulus)
    with ((a + half_modulus) mod modulus + b) by ring.
  replace (a + b + half_modulus) with ((a + half_modulus) + b) by ring.
  rewrite Zplus_mod_idemp_l. reflexivity.
Qed.

End Int32Facts.

(** ** [double] arithmetic

    The conversion of an integer below [2^53] is exact, and the quotient of
    two such integers is within relative error [2^-53] of their exact
    quotient. *)

Module DoubleFacts.
Import Double.

(** *** Bit lengths *)

Lemma digits2_pos_bounds (p : positive) :
  2 ^ (Z.pos (digits2_pos p) - 1) <= Z.pos p < 2 ^ Z.pos (digits2_pos p).
Proof.
  induction p as [p IH|p IH|]; cbn [digits2_pos].
  - rewrite Pos2Z.inj_succ.
    replace (Z.succ (Z.pos (digits2_pos p)) - 1)
      with (Z.succ (Z.pos (digits2_pos p) - 1)) by lia.
    rewrite !Z.pow_succ_r by lia. lia.
  - rewrite Pos2Z.inj_succ.
    replace (Z.succ (Z.pos (digits2_pos p)) - 1)
      with (Z.succ (Z.pos (digits2_pos p) - 1)) by lia.
    rewrite !Z.pow_succ_r by lia. lia.
  - cbn. lia.
Qed.

Lemma digits2_pos_unique (p : positive) (d : Z) :
  2 ^ (d - 1) <= Z.pos p < 2 ^ d -> Z.pos (digits2_pos p) = d.
Proof.
  intros [Hl Hu]. pose proof (digits2_pos_bounds p) as [Bl Bu].
  set (n := Z.pos (digits2_pos p)) in *.
  assert (0 < n) by (subst n; lia).
  destruct (Z.lt_trichotomy n d) as [Hlt|[Heq|Hgt]];
    [exfalso | exact Heq | exfalso].
  - assert (2 ^ n <= 2 ^ (d - 1)) by (apply Z.pow_le_mono_r; lia). lia.
  - assert (0 <= d \/ d < 0) as [Hd|Hd] by lia.
    + assert (2 ^ d <= 2 ^ (n - 1)) by (apply Z.pow_le_mono_r; lia). lia.
    + rewrite (Z.pow_neg_r 2 d) in Hu by lia. lia.
Qed.

Lemma iter_xO (k m : positive) :
  Z.pos (Pos.iter xO m k) = Z.pos m * 2 ^ Z.pos k.
Proof.
  revert m. induction k as [|k IH] using Pos.peano_ind; intros m.
  - cbn. lia.
  - rewrite Pos.iter_succ, Pos2Z.inj_succ, Z.pow_succ_r by lia.
    rewrite Pos2Z.inj_xO, IH. ring.
Qed.

(** *** Rounding a mantissa that already has 53 or 54 bits *)

Lemma binary_round_aux_finish sx mx ex lx :
  binary_round_aux prec emax sx mx ex lx
  = let '(mrs, e) := shr_fexp prec emax mx ex lx in
    finish sx (round_nearest_even (shr_m mrs) (loc_of_shr_record mrs)) e.
Proof. reflexivity. Qed.

Lemma loc_of_shr_record_of_loc m l :
  loc_of_shr_record (shr_record_of_loc m l) = l.
Proof. destruct l as [|[]]; reflexivity. Qed.

Lemma shr_m_record_of_loc m l : shr_m (shr_record_of_loc m l) = m.
Proof. destruct l as [|[]]; reflexivity. Qed.

Lemma fexp_normal e : -1074 <= e - 53 -> fexp prec emax e = e - 53.
Proof. unfold fexp, emin, prec, emax. lia. Qed.

Lemma shr_fexp_53 (m : positive) e l :
  2 ^ 52 <= Z.pos m < 2 ^ 53 -> -1074 <= e ->
  shr_fexp prec emax (Z.pos m) e l = (shr_record_of_loc (Z.pos m) l, e).
Proof.
  intros Hm He. unfold shr_fexp. cbn [Zdigits2].
  rewrite (digits2_pos_unique m 53) by exact Hm.
  rewrite fexp_normal by lia.
  replace (53 + e - 53 - e) with 0 by lia. reflexivity.
Qed.

Lemma shr_fexp_54 (m : positive) e l :
  2 ^ 53 <= Z.pos m < 2 ^ 54 -> -1074 <= e ->
  shr_fexp prec emax (Z.pos m) e l
  = (shr_1 (shr_record_of_loc (Z.pos m) l), e + 1).
Proof.
  intros Hm He. unfold shr_fexp. cbn [Zdigits2].
  rewrite (digits2_pos_unique m 54) by exact Hm.
  rewrite fexp_normal by lia.
  replace (54 + e - 53 - e) with 1 by lia. reflexivity.
Qed.

Lemma finish_53 sx (m : positive) e :
  2 ^ 52 <= Z.pos m < 2 ^ 53 -> -1074 <= e <= 971 ->
  finish sx (Z.pos m) e = S754_finite sx m e.
Proof.
  intros Hm He. unfold finish. rewrite shr_fexp_53 by (exact Hm || lia).
  cbn [shr_record_of_loc shr_m].
  replace (e <=? emax - prec) with true; [reflexivity|].
  symmetry. apply Z.leb_le. unfold emax, prec. lia.
Qed.

Lemma finish_carry sx e :
  -1074 <= e <= 970 ->
  finish sx (2 ^ 53) e = S754_finite sx (2 ^ 52) (e + 1).
Proof.
  intros He. unfold finish.
  change (2 ^ 53) with (Z.pos (2 ^ 53)).
  rewrite shr_fexp_54 by (cbn; lia).
  cbn [shr_record_of_loc shr_1 shr_m Pos.pow].
  change (shr_m (shr_1 {| shr_m := Z.pos (2 ^ 53); shr_r := false;
                          shr_s := false |}))
    with (Z.pos (2 ^ 52)).
  replace (e + 1 <=? emax - prec) with true; [reflexivity|].
  symmetry. apply Z.leb_le. unfold emax, prec. lia.
Qed.

(** *** Conversion of integers *)

Lemma binary_round_small sx (m : positive) :
  Z.pos m < 2 ^ 53 -> binary_round prec emax sx m 0 = normal sx m.
Proof.
  intros Hm. pose proof (digits2_pos_bounds m) as [Bl Bu].
  unfold binary_round, normal. set (d := Z.pos (digits2_pos m)) in *.
  assert (Hd : 1 <= d <= 53).
  { split; [subst d; lia|].
    destruct (Z_le_gt_dec d 53) as [|Hgt]; [assumption|exfalso].
    assert (2 ^ 53 <= 2 ^ (d - 1)) by (apply Z.pow_le_mono_r; lia). lia. }
  rewrite Z.add_0_r, fexp_normal by lia.
  unfold shl_align.
  assert (Hpow : 2 ^ (d - 1) * 2 ^ (53 - d) = 2 ^ 52).
  { rewrite <- Z.pow_add_r by lia. f_equal. lia. }
  assert (Hpow' : 2 ^ d * 2 ^ (53 - d) = 2 ^ 53).
  { rewrite <- Z.pow_add_r by lia. f_equal. lia. }
  assert (Hp : 0 < 2 ^ (53 - d)) by (apply Z.pow_pos_nonneg; lia).
  assert (Hn : 2 ^ 52 <= Z.pos m * 2 ^ (53 - d) < 2 ^ 53) by nia.
  destruct (d - 53 - 0) as [|k|k] eqn:Ek; try lia.
  - replace (53 - d) with 0 in * by lia. rewrite Z.pow_0_r, Z.mul_1_r in *.
    rewrite binary_round_aux_finish, shr_fexp_53 by (lia || assumption).
    rewrite shr_m_record_of_loc, loc_of_shr_record_of_loc.
    cbn [round_nearest_even]. rewrite finish_53 by lia.
    f_equal. lia.
  - assert (Hk : Z.pos (Pos.iter xO m k) = Z.pos m * 2 ^ (53 - d)).
    { rewrite iter_xO. f_equal. f_equal. lia. }
    rewrite binary_round_aux_finish, shr_fexp_53 by (rewrite ?Hk; lia).
    rewrite shr_m_record_of_loc, loc_of_shr_record_of_loc.
    cbn [round_nearest_even]. rewrite finish_53 by (rewrite ?Hk; lia).
    f_equal. rewrite <- Hk. reflexivity.
Qed.

Lemma of_Z_pos (m : positive) :
  Z.pos m < 2 ^ 53 -> of_Z (Z.pos m) = normal false m.
Proof. apply binary_round_small. Qed.

Lemma of_Z_neg (m : positive) :
  Z.pos m < 2 ^ 53 -> of_Z (Z.neg m) = normal true m.
Proof. apply binary_round_small. Qed.

(** *** Division of two 53-bit mantissas *)

Lemma new_location_spec my r :
  0 < my -> 0 <= r < my ->
  new_location my r
  = if r =? 0 then loc_Exact else loc_Inexact (2 * r ?= my).
Proof.
  intros Hmy Hr. unfold new_location, new_location_even, new_location_odd.
  destruct (Z.even my) eqn:Ev; destruct (r =? 0) eqn:Er; try reflexivity.
  f_equal.
  assert (Hodd : Z.odd my = true) by (rewrite <- Z.negb_even, Ev; reflexivity).
  apply Z.odd_spec in Hodd as [h Hh].
  destruct (2 * r + 1 ?= my) eqn:C.
  - apply Z.compare_eq in C. symmetry. apply Z.compare_lt_iff. lia.
  - apply (proj1 (Z.compare_lt_iff _ _)) in C. symmetry.
    apply Z.compare_lt_iff. lia.
  - apply (proj1 (Z.compare_gt_iff _ _)) in C. symmetry.
    apply Z.compare_gt_iff. lia.
Qed.

Lemma div_core (mx my : positive) ex ey :
  2 ^ 52 <= Z.pos mx < 2 ^ 53 -> 2 ^ 52 <= Z.pos my < 2 ^ 53 ->
  -1021 <= ex - ey ->
  SFdiv_core_binary prec emax (Z.pos mx) ex (Z.pos my) ey
  = (Z.pos mx * 2 ^ 53 / Z.pos my, ex - ey - 53,
     new_location (Z.pos my) ((Z.pos mx * 2 ^ 53) mod Z.pos my)).
Proof.
  intros Hx Hy He. unfold SFdiv_core_binary. cbn [Zdigits2].
  rewrite (digits2_pos_unique mx 53), (digits2_pos_unique my 53) by assumption.
  rewrite fexp_normal by lia.
  replace (Z.min (53 + ex - (53 + ey) - 53) (ex - ey)) with (ex - ey - 53)
    by lia.
  replace (ex - ey - (ex - ey - 53)) with 53 by lia.
  cbv iota. rewrite Z.shiftl_mul_pow2 by lia.
  unfold Z.div, Z.modulo.
  destruct (Z.div_eucl (Z.pos mx * 2 ^ 53) (Z.pos my)) as [q r]. reflexivity.
Qed.

(** Rounding the quotient [q + r / my] to an integer, to the nearest and to
    even on a tie. *)
Lemma round_quotient (q my r : Z) :
  0 < my -> 0 <= r < my ->
  let M := round_nearest_even q (new_location my r) in
  (M = q \/ M = q + 1) /\ 2 * Z.abs (M * my - (my * q + r)) <= my.
Proof.
  intros Hmy Hr. rewrite new_location_spec by assumption. cbv zeta.
  destruct (r =? 0) eqn:Er.
  - apply Z.eqb_eq in Er. cbn. split; [now left | lia].
  - apply Z.eqb_neq in Er. cbn [round_nearest_even].
    destruct (2 * r ?= my) eqn:C.
    + apply Z.compare_eq in C. destruct (Z.even q); split; auto; lia.
    + apply (proj1 (Z.compare_lt_iff _ _)) in C. split; [now left | lia].
    + apply (proj1 (Z.compare_gt_iff _ _)) in C. split; [now right | lia].
Qed.

(** The same after one bit of [q] has been shifted out: the quotient is
    rounded to an even integer [2 * M]. *)

Lemma round_quotient_shifted (q : positive) (my r : Z) :
  0 < my -> 0 <= r < my -> 2 <= Z.pos q ->
  let mrs := shr_1 (shr_record_of_loc (Z.pos q) (new_location my r)) in
  let M := round_nearest_even (shr_m mrs) (loc_of_shr_record mrs) in
  2 * M - 2 <= Z.pos q <= 2 * M + 1 /\
  Z.abs (2 * M * my - (my * Z.pos q + r)) <= my.
Proof.
  intros Hmy Hr Hq. rewrite new_location_spec by assumption. cbv zeta.
  destruct (r =? 0) eqn:Er;
    [apply Z.eqb_eq in Er | apply Z.eqb_neq in Er;
                            destruct (2 * r ?= my) eqn:C];
    (destruct q as [p|p|]; [| |lia]);
    cbn [shr_record_of_loc shr_1 shr_m loc_of_shr_record orb
         round_nearest_even];
    rewrite ?(Pos2Z.inj_xI p), ?(Pos2Z.inj_xO p);
    generalize (Z.pos p) as h; intros h;
    try (apply Z.compare_eq in C);
    try (apply (proj1 (Z.compare_lt_iff _ _)) in C);
    try (apply (proj1 (Z.compare_gt_iff _ _)) in C);
    try (destruct (Z.even h)); split; lia.
Qed.

(** The rounded mantissa [M], between [2^52] and [2^53], at exponent [e]. *)
Lemma finish_rounded sx M e :
  2 ^ 52 <= M <= 2 ^ 53 -> -1074 <= e <= 970 ->
  exists (m : positive) (c : Z),
    (c = 0 \/ c = 1) /\ finish sx M e = S754_finite sx m (e + c) /\
    2 ^ 52 <= Z.pos m < 2 ^ 53 /\ Z.pos m * 2 ^ c = M.
Proof.
  intros HM He. destruct (Z.eq_dec M (2 ^ 53)) as [->|Hne].
  - exists (2 ^ 52)%positive, 1. rewrite finish_carry by lia.
    repeat split; try (now right); cbn; lia.
  - destruct M as [|m|m]; try lia. exists m, 0.
    rewrite finish_53, Z.add_0_r by lia.
    repeat split; try (now left); lia.
Qed.

Lemma div_finite sx sy (mx my : positive) ex ey :
  2 ^ 52 <= Z.pos mx < 2 ^ 53 -> 2 ^ 52 <= Z.pos my < 2 ^ 53 ->
  -1021 <= ex - ey <= 1022 ->
  exists (m : positive) (k : Z),
    0 <= k <= 2 /\
    div (S754_finite sx mx ex) (S754_finite sy my ey)
    = S754_finite (xorb sx sy) m (ex - ey - 53 + k) /\
    2 ^ 52 <= Z.pos m < 2 ^ 53 /\
    2 ^ 53 * Z.abs (Z.pos m * 2 ^ k * Z.pos my - Z.pos mx * 2 ^ 53)
    <= Z.pos mx * 2 ^ 53.
Proof.
  intros Hx Hy He. unfold div, SFdiv.
  rewrite div_core by (assumption || lia).
  rewrite binary_round_aux_finish.
  set (a := Z.pos mx * 2 ^ 53).
  assert (Ha : a = Z.pos my * (a / Z.pos my) + a mod Z.pos my)
    by (apply Z.div_mod; lia).
  assert (Hr : 0 <= a mod Z.pos my < Z.pos my)
    by (apply Z.mod_pos_bound; lia).
  assert (Hq : 2 ^ 52 <= a / Z.pos my < 2 ^ 54).
  { split.
    - apply Z.div_le_lower_bound; [lia|]. subst a. nia.
    - apply Z.div_lt_upper_bound; [lia|]. subst a. nia. }
  revert Ha Hr Hq. generalize (a mod Z.pos my) as r.
  generalize (a / Z.pos my) as q. intros q r Ha Hr Hq.
  destruct (Z_lt_le_dec q (2 ^ 53)) as [Hlt|Hge].
  - destruct q as [|pq|pq]; try lia.
    rewrite shr_fexp_53 by lia.
    rewrite shr_m_record_of_loc, loc_of_shr_record_of_loc.
    pose proof (round_quotient (Z.pos pq) (Z.pos my) r ltac:(lia) Hr)
      as [HM Hb].
    revert HM Hb.
    generalize (round_nearest_even (Z.pos pq) (new_location (Z.pos my) r)).
    intros M HM Hb.
    destruct (finish_rounded (xorb sx sy) M (ex - ey - 53))
      as (m & c & Hc & -> & Hm & HmM); [lia | lia |].
    exists m, c. split; [lia|]. split; [reflexivity|]. split; [exact Hm|].
    rewrite HmM, Ha.
    assert (2 ^ 52 * Z.pos my <= Z.pos my * Z.pos pq) by nia.
    lia.
  - destruct q as [|pq|pq]; try lia.
    rewrite shr_fexp_54 by lia.
    pose proof (round_quotient_shifted pq (Z.pos my) r ltac:(lia) Hr
                  ltac:(lia)) as [HM Hb].
    revert HM Hb.
    generalize (round_nearest_even
                  (shr_m (shr_1 (shr_record_of_loc (Z.pos pq)
                                   (new_location (Z.pos my) r))))
                  (loc_of_shr_record
                     (shr_1 (shr_record_of_loc (Z.pos pq)
                               (new_location (Z.pos my) r))))).
    intros M HM Hb.
    destruct (finish_rounded (xorb sx sy) M (ex - ey - 53 + 1))
      as (m & c & Hc & -> & Hm & HmM); [lia | lia |].
    exists m, (1 + c). split; [lia|].
    split; [f_equal; lia|]. split; [exact Hm|].
    rewrite Z.pow_add_r by lia.
    replace (Z.pos m * (2 ^ 1 * 2 ^ c)) with (2 * (Z.pos m * 2 ^ c)) by ring.
    rewrite HmM, Ha.
    assert (2 ^ 53 * Z.pos my <= Z.pos my * Z.pos pq) by nia.
    lia.
Qed.

Lemma normal_mantissa (a : positive) :
  Z.pos a < 2 ^ 53 ->
  let d := Z.pos (digits2_pos a) in
  1 <= d <= 53 /\
  Z.pos (Z.to_pos (Z.pos a * 2 ^ (53 - d))) = Z.pos a * 2 ^ (53 - d) /\
  2 ^ 52 <= Z.pos a * 2 ^ (53 - d) < 2 ^ 53.
Proof.
  intros Ha d. pose proof (digits2_pos_bounds a) as [Bl Bu]. fold d in Bl, Bu.
  assert (Hd : 1 <= d <= 53).
  { split; [subst d; lia|].
    destruct (Z_le_gt_dec d 53) as [|Hgt]; [assumption|exfalso].
    assert (2 ^ 53 <= 2 ^ (d - 1)) by (apply Z.pow_le_mono_r; lia). lia. }
  assert (Hpow : 2 ^ (d - 1) * 2 ^ (53 - d) = 2 ^ 52).
  { rewrite <- Z.pow_add_r by lia. f_equal. lia. }
  assert (Hpow' : 2 ^ d * 2 ^ (53 - d) = 2 ^ 53).
  { rewrite <- Z.pow_add_r by lia. f_equal. lia. }
  assert (Hp : 0 < 2 ^ (53 - d)) by (apply Z.pow_pos_nonneg; lia).
  assert (Hn : 2 ^ 52 <= Z.pos a * 2 ^ (53 - d) < 2 ^ 53) by nia.
  repeat split; try lia.
Qed.

Lemma div_normal sx sy (a n : positive) :
  Z.pos a < 2 ^ 53 -> Z.pos n < 2 ^ 53 ->
  exists (m : positive) (u w : Z),
    0 <= u /\ 0 <= w /\
    div (normal sx a) (normal sy n) = S754_finite (xorb sx sy) m (u - w) /\
    2 ^ 52 <= Z.pos m < 2 ^ 53 /\
    2 ^ 53 * Z.abs (Z.pos m * 2 ^ u * Z.pos n - Z.pos a * 2 ^ w)
    <= Z.pos a * 2 ^ w.
Proof.
  intros Ha Hn.
  destruct (normal_mantissa a Ha) as (Hda & Ea & Ba).
  destruct (normal_mantissa n Hn) as (Hdn & En & Bn).
  unfold normal.
  set (da := Z.pos (digits2_pos a)) in *.
  set (dn := Z.pos (digits2_pos n)) in *.
  destruct (div_finite sx sy (Z.to_pos (Z.pos a * 2 ^ (53 - da)))
              (Z.to_pos (Z.pos n * 2 ^ (53 - dn))) (da - 53) (dn - 53))
    as (m & k & Hk & Hdiv & Hm & Hb); [lia | lia | lia |].
  exists m, (k + (53 - dn)), (53 - da + 53).
  split; [lia|]. split; [lia|].
  split; [rewrite Hdiv; f_equal; lia|]. split; [exact Hm|].
  rewrite Ea, En in Hb. rewrite !Z.pow_add_r by lia.
  replace (Z.pos m * (2 ^ k * 2 ^ (53 - dn)) * Z.pos n)
    with (Z.pos m * 2 ^ k * (Z.pos n * 2 ^ (53 - dn))) by ring.
  replace (Z.pos a * (2 ^ (53 - da) * 2 ^ 53))
    with (Z.pos a * 2 ^ (53 - da) * 2 ^ 53) by ring.
  exact Hb.
Qed.

Lemma Qpower2_diff (u w : Z) :
  0 <= u -> 0 <= w ->
  (2 ^ (u - w) == inject_Z (2 ^ u) / inject_Z (2 ^ w))%Q.
Proof.
  intros Hu Hw. rewrite !Zpower_Qpower by assumption.
  apply Qpower_minus. discriminate.
Qed.

Lemma approx_pos (m a n : positive) (u w : Z) :
  0 <= u -> 0 <= w ->
  2 ^ 53 * Z.abs (Z.pos m * 2 ^ u * Z.pos n - Z.pos a * 2 ^ w)
  <= Z.pos a * 2 ^ w ->
  (Qabs (inject_Z (Z.pos m) * 2 ^ (u - w)
         - inject_Z (Z.pos a) / inject_Z (Z.pos n))
   <= unit_roundoff * (inject_Z (Z.pos a) / inject_Z (Z.pos n)))%Q.
Proof.
  intros Hu Hw Hb. rewrite Qpower2_diff by assumption.
  assert (Hpw : 0 < 2 ^ w) by (apply Z.pow_pos_nonneg; lia).
  assert (Hpu : 0 < 2 ^ u) by (apply Z.pow_pos_nonneg; lia).
  destruct (2 ^ w) as [|pw|pw] eqn:Ew; try lia.
  rewrite <- !Qmake_Qdiv.
  generalize (2 ^ u) Hb. clear. intros U Hb.
  unfold unit_roundoff, Qle, Qabs, Qminus, Qplus, Qopp, Qmult, inject_Z.
  cbn [Qnum Qden].
  rewrite !Pos2Z.inj_mul, !Z.mul_1_l, ?Z.mul_1_r.
  change (Z.pos (2 ^ 53)) with (2 ^ 53).
  replace (Z.pos m * U * Z.pos n + - Z.pos a * Z.pos pw)
    with (Z.pos m * U * Z.pos n - Z.pos a * Z.pos pw) by ring.
  set (D := Z.abs _) in *.
  replace (D * (2 ^ 53 * Z.pos n)) with (2 ^ 53 * D * Z.pos n) by ring.
  replace (Z.pos a * (Z.pos pw * Z.pos n))
    with (Z.pos a * Z.pos pw * Z.pos n) by ring.
  apply Z.mul_le_mono_nonneg_r; [lia | exact Hb].
Qed.

Lemma cond_Zopp_Q (sx : bool) (z : Z) :
  inject_Z (cond_Zopp sx z) = (if sx then - inject_Z z else inject_Z z)%Q.
Proof. destruct sx; reflexivity. Qed.

Lemma approx_signed (sx : bool) (m a n : positive) (u w : Z) :
  0 <= u -> 0 <= w ->
  2 ^ 53 * Z.abs (Z.pos m * 2 ^ u * Z.pos n - Z.pos a * 2 ^ w)
  <= Z.pos a * 2 ^ w ->
  approximates (S754_finite sx m (u - w))
               (inject_Z (cond_Zopp sx (Z.pos a)) / inject_Z (Z.pos n)).
Proof.
  intros Hu Hw Hb. eexists. split; [reflexivity|].
  pose proof (approx_pos m a n u w Hu Hw Hb) as H.
  assert (Hx : (0 <= inject_Z (Z.pos a) / inject_Z (Z.pos n))%Q).
  { apply Qle_shift_div_l; [reflexivity|]. rewrite Qmult_0_l. discriminate. }
  rewrite !cond_Zopp_Q. destruct sx.
  - setoid_replace (- inject_Z (Z.pos m) * 2 ^ (u - w)
                    - - inject_Z (Z.pos a) / inject_Z (Z.pos n))%Q
      with (- (inject_Z (Z.pos m) * 2 ^ (u - w)
               - inject_Z (Z.pos a) / inject_Z (Z.pos n)))%Q
      using relation Qeq by (field; discriminate).
    setoid_replace (- inject_Z (Z.pos a) / inject_Z (Z.pos n))%Q
      with (- (inject_Z (Z.pos a) / inject_Z (Z.pos n)))%Q
      using relation Qeq by (field; discriminate).
    rewrite !Qabs_opp. rewrite (Qabs_pos _ Hx). exact H.
  - rewrite (Qabs_pos _ Hx). exact H.
Qed.

Lemma approximates_zero (x : Q) (sx : bool) :
  (x == 0)%Q -> approximates (S754_zero sx) x.
Proof.
  intros Hx. exists 0%Q. split; [reflexivity|]. rewrite Hx. discriminate.
Qed.


Lemma mean_accurate (total : Z) (count : nat) :
  Z.abs total < 2 ^ 53 -> 1 <= Z.of_nat count < 2 ^ 53 ->
  approximates (mean total count)
               (inject_Z total / inject_Z (Z.of_nat count)).
Proof.
  intros Ht Hc. unfold mean.
  destruct (Z.of_nat count) as [|n|n]; try lia.
  rewrite (of_Z_pos n) by lia.
  destruct total as [|a|a].
  - apply approximates_zero. unfold Qdiv. apply Qmult_0_l.
  - rewrite of_Z_pos by lia.
    destruct (div_normal false false a n)
      as (m & u & w & Hu & Hw & -> & _ & Hb);
      [lia | lia |].
    apply (approx_signed false m a n u w Hu Hw Hb).
  - rewrite of_Z_neg by lia.
    destruct (div_normal true false a n)
      as (m & u & w & Hu & Hw & -> & _ & Hb);
      [lia | lia |].
    apply (approx_signed true m a n u w Hu Hw Hb).
Qed.

(** A [double] within relative error [2^-53] of [w / n] does not stand for
    [s / n] when [s] is further from [w] than that. *)
Lemma approximates_apart (d : spec_float) (w s : Z) (n : positive) :
  approximates d (inject_Z w / inject_Z (Z.pos n)) ->
  Z.abs w < 2 ^ 53 * Z.abs (s - w) ->
  forall v, value d = Some v -> ~ (v == inject_Z s / inject_Z (Z.pos n))%Q.
Proof.
  intros (v' & Hv' & Hb) Hfar v Hv Heq.
  rewrite Hv in Hv'. injection Hv' as <-.
  rewrite Heq in Hb. rewrite <- !Qmake_Qdiv in Hb.
  unfold unit_roundoff, Qle, Qabs, Qminus, Qplus, Qopp, Qmult in Hb.
  cbn [Qnum Qden] in Hb.
  rewrite !Pos2Z.inj_mul, Z.mul_1_l in Hb.
  change (Z.pos (2 ^ 53)) with (2 ^ 53) in Hb.
  replace (s * Z.pos n + - w * Z.pos n) with ((s - w) * Z.pos n) in Hb by ring.
  rewrite Z.abs_mul in Hb. rewrite (Z.abs_eq (Z.pos n)) in Hb by lia.
  assert (H : (2 ^ 53 * Z.abs (s - w)) * (Z.pos n * Z.pos n)
              <= Z.abs w * (Z.pos n * Z.pos n)) by lia.
  apply Z.mul_le_mono_pos_r in H; lia.
Qed.

End DoubleFacts.

(** ** Running the monad *)

Ltac unfold_M := unfold mbind, M_bind, mret, M_ret in *.

Lemma run_bind {A B} (m : M A) (k : A -> M B) st a st1 :
  m st = Some (a, st1) -> (m ≫= k) st = k a st1.
Proof. intros H. unfold_M. now rewrite H. Qed.

Lemma run_bind_inv {A B} (m : M A) (k : A -> M B) st b st2 :
  (m ≫= k) st = Some (b, st2) ->
  exists a st1, m st = Some (a, st1) /\ k a st1 = Some (b, st2).
Proof.
  unfold_M. destruct (m st) as [[a st1]|] eqn:E; [|discriminate].
  intros H. now exists a, st1.
Qed.

Lemma run_put s st :
  put s st = Some (tt, {| heap := heap st; cout := cout st +:+ s |}).
Proof. reflexivity. Qed.

Lemma run_load p st o : heap st !! p = Some o -> load p st = Some (o, st).
Proof. intros H. unfold load. now rewrite H. Qed.

Lemma load_inv p st o st' :
  load p st = Some (o, st') -> heap st !! p = Some o /\ st' = st.
Proof.
  unfold load. destruct (heap st !! p) eqn:E; [|discriminate].
  intros [= <- <-]. now split.
Qed.

(** ** Member functions *)

Lemma run_display this st o :
  heap st !! this = Some o ->
  display this st
  = Some (tt, {| heap := heap st;
                 cout := cout st +:+ describe o +:+ newline |}).
Proof.
  intros H. unfold display.
  rewrite (run_bind _ _ _ _ _ (run_load _ _ _ H)).
  unfold put_int, endl. unfold_M. rewrite !run_put. cbn [heap cout].
  unfold describe. now rewrite !string_app_assoc.
Qed.

Lemma display_inv this st r st' :
  display this st = Some (r, st') ->
  exists o, heap st !! this = Some o /\
            st' = {| heap := heap st;
                     cout := cout st +:+ describe o +:+ newline |}.
Proof.
  intros H. destruct (heap st !! this) as [o|] eqn:E.
  - exists o. split; [reflexivity|].
    rewrite (run_display _ _ _ E) in H. congruence.
  - unfold display, load in H. unfold_M. now rewrite E in H.
Qed.

Lemma run_getAge this st o :
  heap st !! this = Some o -> getAge this st = Some (age o, st).
Proof.
  intros H. unfold getAge. now rewrite (run_bind _ _ _ _ _ (run_load _ _ _ H)).
Qed.

Lemma getAge_inv this st a st' :
  getAge this st = Some (a, st') ->
  exists o, heap st !! this = Some o /\ a = age o /\ st' = st.
Proof.
  unfold getAge. intros H. apply run_bind_inv in H as (o & st1 & H1 & H2).
  apply load_inv in H1 as [H1 ->]. unfold_M. injection H2 as <- <-.
  now exists o.
Qed.

(** ** The roster *)

Lemma members_cons h p family ms :
  members h (p :: family) = Some ms ->
  exists o os, h !! p = Some o /\ members h family = Some os /\ ms = o :: os.
Proof.
  cbn [members]. destruct (h !! p) as [o|]; [|discriminate].
  destruct (members h family) as [os|]; [|discriminate].
  intros [= <-]. now exists o, os.
Qed.

Lemma members_length h family ms :
  members h family = Some ms -> length ms = length family.
Proof.
  revert ms. induction family as [|p family IH]; intros ms H.
  - now injection H as <-.
  - apply members_cons in H as (o & os & _ & Hos & ->).
    cbn [length]. f_equal. now apply IH.
Qed.

Lemma members_lookup h family ms (i : nat) p :
  members h family = Some ms -> family !! i = Some p ->
  exists o, h !! p = Some o /\ ms !! i = Some o.
Proof.
  revert ms i. induction family as [|q family IH]; intros ms i H Hi.
  - discriminate.
  - apply members_cons in H as (o & os & Ho & Hos & ->).
    destruct i as [|i].
    + injection Hi as ->. now exists o.
    + apply (IH os i Hos Hi).
Qed.

Lemma lines_app l1 l2 : lines (l1 ++ l2) = lines l1 +:+ lines l2.
Proof.
  induction l1 as [|s l1 IH]; [reflexivity|].
  cbn [app lines]. now rewrite IH, !string_app_assoc.
Qed.

(** ** The two loops *)

Lemma run_for_each_display family : forall ms st,
  members (heap st) family = Some ms ->
  for_each family display st
  = Some (tt, {| heap := heap st;
                 cout := cout st +:+ lines (map describe ms) |}).
Proof.
  induction family as [|p family IH]; intros ms st H.
  - injection H as <-. cbn. rewrite string_app_nil_r. now destruct st.
  - apply members_cons in H as (o & os & Ho & Hos & ->).
    cbn [for_each]. rewrite (run_bind _ _ _ _ _ (run_display _ _ _ Ho)).
    rewrite (IH os) by exact Hos. cbn [heap cout map lines].
    now rewrite !string_app_assoc.
Qed.

Lemma for_each_display_defined family : forall st r st',
  for_each family display st = Some (r, st') ->
  exists ms, members (heap st) family = Some ms.
Proof.
  induction family as [|p family IH]; intros st r st' H.
  - now exists [].
  - cbn [for_each] in H. apply run_bind_inv in H as (u & st1 & H1 & H2).
    apply display_inv in H1 as (o & Ho & ->).
    apply IH in H2 as (os & Hos). cbn [heap] in Hos.
    exists (o :: os). cbn [members]. now rewrite Ho, Hos.
Qed.

Lemma run_add_age acc member st o :
  heap st !! member = Some o ->
  add_age acc member st = Some (Int32.add acc (age o), st).
Proof.
  intros H. unfold add_age.
  now rewrite (run_bind _ _ _ _ _ (run_getAge _ _ _ H)).
Qed.

Lemma run_for_each_acc_age family : forall ms acc st,
  members (heap st) family = Some ms ->
  for_each_acc family acc add_age st
  = Some (fold_left Int32.add (map age ms) acc, st).
Proof.
  induction family as [|p family IH]; intros ms acc st H.
  - now injection H as <-.
  - apply members_cons in H as (o & os & Ho & Hos & ->).
    cbn [for_each_acc].
    rewrite (run_bind _ _ _ _ _ (run_add_age acc _ _ _ Ho)).
    now rewrite (IH os) by exact Hos.
Qed.

Lemma for_each_acc_age_defined family : forall acc st r st',
  for_each_acc family acc add_age st = Some (r, st') ->
  st' = st /\ exists ms, members (heap st) family = Some ms.
Proof.
  induction family as [|p family IH]; intros acc st r st' H.
  - injection H as _ <-. split; [reflexivity | now exists []].
  - cbn [for_each_acc] in H. apply run_bind_inv in H as (a & st1 & H1 & H2).
    unfold add_age in H1. apply run_bind_inv in H1 as (b & st2 & H1 & H3).
    apply getAge_inv in H1 as (o & Ho & -> & ->).
    unfold_M. injection H3 as <- <-.
    apply IH in H2 as [-> (os & Hos)]. split; [reflexivity|].
    exists (o :: os). cbn [members]. now rewrite Ho, Hos.
Qed.

(** Wrapping after every addition or once at the end gives the same [int]. *)
Lemma fold_left_add_wrap ages : forall acc,
  fold_left Int32.add ages (Int32.wrap acc)
  = Int32.wrap (fold_left Z.add ages acc).
Proof.
  induction ages as [|a ages IH]; intros acc; [reflexivity|].
  cbn [fold_left]. unfold Int32.add at 2. rewrite Int32Facts.wrap_add_l.
  apply IH.
Qed.

Lemma fold_left_add_int ages :
  fold_left Int32.add ages 0 = Int32.wrap (sum_ages ages).
Proof. exact (fold_left_add_wrap ages 0). Qed.

(** ** [renderAll], [averageAge] and [displayFamily] on a valid roster *)

Section Roster.

Variable string_of_double : spec_float -> string.

Lemma run_renderAll family st ms :
  members (heap st) family = Some ms ->
  renderAll family st
  = Some (tt, {| heap := heap st;
                 cout := cout st +:+ "Family Members:" +:+ newline
                         +:+ lines (map describe ms) |}).
Proof.
  intros Hms. unfold renderAll, endl.
  rewrite (run_bind _ _ _ _ _ (run_put _ _)).
  rewrite (run_bind _ _ _ _ _ (run_put _ _)).
  rewrite (run_for_each_display family ms) by exact Hms.
  cbn [heap cout]. now rewrite !string_app_assoc.
Qed.

Lemma run_totalAge family st ms :
  members (heap st) family = Some ms ->
  totalAge family st = Some (Int32.wrap (sum_ages (map age ms)), st).
Proof.
  intros Hms. unfold totalAge.
  rewrite (run_for_each_acc_age family ms) by exact Hms.
  now rewrite fold_left_add_int.
Qed.

Lemma run_averageAge family st ms :
  members (heap st) family = Some ms ->
  averageAge family st
  = Some (mean (Int32.wrap (sum_ages (map age ms))) (length family), st).
Proof.
  intros Hms. unfold averageAge.
  now rewrite (run_bind _ _ _ _ _ (run_totalAge _ _ _ Hms)).
Qed.

Lemma run_displayFamily family st ms :
  members (heap st) family = Some ms ->
  displayFamily string_of_double family st
  = Some (tt, {| heap := heap st;
                 cout := cout st +:+ "Family Members:" +:+ newline
                         +:+ lines (map describe ms)
                         +:+ "Average Age: "
                         +:+ string_of_double
                               (mean (Int32.wrap (sum_ages (map age ms)))
                                     (length family))
                         +:+ newline |}).
Proof.
  intros Hms. unfold displayFamily.
  rewrite (run_bind _ _ _ _ _ (run_renderAll _ _ _ Hms)).
  erewrite run_bind; [|apply (run_averageAge _ _ ms); exact Hms].
  unfold put_double, endl. unfold_M. rewrite !run_put. cbn [heap cout].
  now rewrite !string_app_assoc.
Qed.

(** A call that returns was made on a roster of live objects. *)
Lemma renderAll_defined family st r st' :
  renderAll family st = Some (r, st') ->
  exists ms, members (heap st) family = Some ms.
Proof.
  unfold renderAll, endl. intros H.
  apply run_bind_inv in H as (u1 & st1 & H1 & H).
  apply run_bind_inv in H as (u2 & st2 & H2 & H).
  rewrite run_put in H1, H2. injection H1 as _ <-. injection H2 as _ <-.
  apply for_each_display_defined in H. exact H.
Qed.

Lemma averageAge_defined family st r st' :
  averageAge family st = Some (r, st') ->
  exists ms, members (heap st) family = Some ms.
Proof.
  unfold averageAge, totalAge. intros H.
  apply run_bind_inv in H as (t & st1 & H1 & _).
  now apply for_each_acc_age_defined in H1 as [_ H1].
Qed.

Lemma displayFamily_defined family st r st' :
  displayFamily string_of_double family st = Some (r, st') ->
  exists ms, members (heap st) family = Some ms.
Proof.
  unfold displayFamily. intros H.
  apply run_bind_inv in H as (u & st1 & H1 & _).
  now apply renderAll_defined in H1.
Qed.

End Roster.

(** ** Allocation and release *)

Lemma new_fresh (st : state) :
  let p := fresh ({[nullptr]} ∪ dom (heap st)) in
  p <> nullptr /\ heap st !! p = None.
Proof.
  intros p. pose proof (is_fresh ({[nullptr]} ∪ dom (heap st))) as Hp.
  change (p ∉ {[nullptr]} ∪ dom (heap st)) in Hp. split.
  - intros E. apply Hp. rewrite E. set_solver.
  - apply not_elem_of_dom. set_solver.
Qed.

Lemma run_new o st :
  exists p st1,
    new o st = Some (p, st1) /\ p <> nullptr /\
    heap st !! p = None /\ heap st1 = <[p := o]> (heap st) /\
    cout st1 = cout st.
Proof.
  destruct (new_fresh st) as [Hn Hf].
  eexists _, _. split; [reflexivity|]. cbn [heap cout]. auto.
Qed.

Lemma new_inv o st p st1 :
  new o st = Some (p, st1) ->
  heap st !! p = None /\ heap st1 = <[p := o]> (heap st) /\ cout st1 = cout st.
Proof.
  destruct (run_new o st) as (p' & st' & E & _ & Hf & Hh & Hc).
  rewrite E. intros [= <- <-]. auto.
Qed.

Lemma delete_inv p st r st1 :
  delete_ p st = Some (r, st1) ->
  cout st1 = cout st /\
  (heap st1 = heap st \/ heap st1 = delete p (heap st)).
Proof.
  unfold delete_. destruct (decide (p = nullptr)).
  - intros [= _ <-]. auto.
  - destruct (heap st !! p); [|discriminate]. intros [= _ <-]. auto.
Qed.

(** A newly constructed object shows and returns what it was constructed
    from. *)
Lemma new_then_read o st :
  exists p st1,
    new o st = Some (p, st1) /\
    getAge p st1 = Some (age o, st1) /\
    display p st1
    = Some (tt, {| heap := heap st1;
                   cout := cout st +:+ describe o +:+ newline |}).
Proof.
  destruct (run_new o st) as (p & st1 & E & _ & _ & Hh & Hc).
  assert (Ho : heap st1 !! p = Some o) by (rewrite Hh; apply lookup_insert_eq).
  exists p, st1. split; [exact E|]. split; [now apply run_getAge|].
  rewrite (run_display _ _ _ Ho). now rewrite Hc.
Qed.

Lemma new_then_display o st :
  exists st',
    (p ← new o; display p) st = Some (tt, st') /\
    cout st' = cout st +:+ describe o +:+ newline.
Proof.
  destruct (new_then_read o st) as (p & st1 & E & _ & Hd).
  eexists. rewrite (run_bind _ _ _ _ _ E). split; [exact Hd | reflexivity].
Qed.

(** * The claims *)

(** ** The average *)

(** C1, as stated, fails: with the ages 2147483647 and 1, both valid [int]s,
    the program computes [-1073741824.0], not the quotient [1073741824.0] of
    the exact sum [2147483648] by the count [2]. *)
Lemma averageAge_overflow_counterexample :
  members (heap overflow_state) overflow_family = Some overflow_members /\
  Forall Int32.in_range (map age overflow_members) /\
  averageAge overflow_family overflow_state
  = Some (Double.of_Z (-1073741824), overflow_state) /\
  mean (sum_ages (map age overflow_members)) (length overflow_family)
  = Double.of_Z 1073741824 /\
  Double.of_Z (-1073741824) <> Double.of_Z 1073741824.
Proof.
  split; [reflexivity|]. split.
  { repeat constructor; vm_compute; discriminate. }
  split; [vm_compute; reflexivity|]. split; [vm_compute; reflexivity|].
  vm_compute. discriminate.
Qed.

(** C1, amended: for every roster of N >= 1 members whose exact age sum,
    folded left to right in insertion order, lies within the [int] range,
    [averageAge] returns the [double] quotient of that sum by N; for
    N < 2^53 this [double] is within relative error 2^-53 of
    (a1 + ... + aN) / N. *)
Theorem averageAge_exact_in_range (family : list ptr) (st : state)
    (ms : list Person) :
  (1 <= length family)%nat ->
  members (heap st) family = Some ms ->
  Int32.in_range (sum_ages (map age ms)) ->
  averageAge family st
  = Some (mean (sum_ages (map age ms)) (length family), st) /\
  (Z.of_nat (length family) < 2 ^ 53 ->
   Double.approximates
     (mean (sum_ages (map age ms)) (length family))
     (inject_Z (sum_ages (map age ms)) / inject_Z (Z.of_nat (length family)))).
Proof.
  intros HN Hms Hr. split.
  - rewrite (run_averageAge _ _ _ Hms). now rewrite Int32Facts.wrap_id.
  - intros Hlen. apply DoubleFacts.mean_accurate; [|lia].
    unfold Int32.in_range, Int32.min_signed, Int32.max_signed,
      Int32.half_modulus in Hr. lia.
Qed.

Lemma averageAge_exact_in_range_witness :
  (1 <= length driver_family)%nat /\
  members (heap driver_state) driver_family = Some driver_members /\
  Int32.in_range (sum_ages (map age driver_members)) /\
  averageAge driver_family driver_state
  = Some (mean (sum_ages (map age driver_members)) (length driver_family),
          driver_state).
Proof.
  assert (H1 : (1 <= length driver_family)%nat) by (vm_compute; lia).
  assert (H2 : members (heap driver_state) driver_family = Some driver_members)
    by reflexivity.
  assert (H3 : Int32.in_range (sum_ages (map age driver_members)))
    by (vm_compute; split; discriminate).
  split; [exact H1|]. split; [exact H2|]. split; [exact H3|].
  exact (proj1 (averageAge_exact_in_range _ _ _ H1 H2 H3)).
Defined.

(** C10: the age sum is accumulated in a signed 32-bit [int].  For every
    roster [totalAge] is the exact sum wrapped to the [int] range and
    [averageAge] is its [double] quotient by the count.  When the exact sum
    lies in the [int] range the wrapped total is the exact sum, and the
    result is within relative error 2^-53 of the exact mean; when it does
    not, the total is another [int], congruent to the sum modulo 2^32, and
    the result is not the exact mean. *)
Theorem totalAge_int_accumulator (family : list ptr) (st : state)
    (ms : list Person) :
  members (heap st) family = Some ms ->
  let exact := sum_ages (map age ms) in
  let count := Z.of_nat (length family) in
  totalAge family st = Some (Int32.wrap exact, st) /\
  averageAge family st = Some (mean (Int32.wrap exact) (length family), st) /\
  (Int32.in_range exact ->
   Int32.wrap exact = exact /\
   (1 <= count < 2 ^ 53 ->
    Double.approximates (mean (Int32.wrap exact) (length family))
                        (inject_Z exact / inject_Z count))) /\
  (~ Int32.in_range exact ->
   Int32.wrap exact <> exact /\
   Int32.in_range (Int32.wrap exact) /\
   (Int32.wrap exact - exact) mod Int32.modulus = 0 /\
   (1 <= count < 2 ^ 53 ->
    forall v, Double.value (mean (Int32.wrap exact) (length family)) = Some v ->
              ~ (v == inject_Z exact / inject_Z count)%Q)).
Proof.
  intros Hms exact count.
  pose proof (Int32Facts.wrap_range exact) as Hw.
  assert (Hw' : Z.abs (Int32.wrap exact) < 2 ^ 53).
  { unfold Int32.in_range, Int32.min_signed, Int32.max_signed,
      Int32.half_modulus in Hw. lia. }
  split; [exact (run_totalAge _ _ _ Hms)|].
  split; [exact (run_averageAge _ _ _ Hms)|]. split.
  - intros Hr. rewrite (Int32Facts.wrap_id _ Hr). split; [reflexivity|].
    intros Hc. rewrite (Int32Facts.wrap_id _ Hr) in Hw'.
    now apply DoubleFacts.mean_accurate.
  - intros Hr.
    assert (Hne : Int32.wrap exact <> exact)
      by (intros E; apply Hr; now apply Int32Facts.wrap_fixed).
    split; [exact Hne|]. split; [exact Hw|].
    split; [apply Int32Facts.wrap_congruent|].
    intros Hc. subst count.
    destruct (Z.of_nat (length family)) as [|n|n] eqn:En; try lia.
    apply (DoubleFacts.approximates_apart _ (Int32.wrap exact)).
    + rewrite <- En. apply DoubleFacts.mean_accurate; [exact Hw' | lia].
    + lia.
Qed.

Lemma totalAge_int_accumulator_witness :
  members (heap overflow_state) overflow_family = Some overflow_members /\
  totalAge overflow_family overflow_state
  = Some (-2147483648, overflow_state) /\
  sum_ages (map age overflow_members) = 2147483648.
Proof.
  assert (H : members (heap overflow_state) overflow_family
              = Some overflow_members) by reflexivity.
  split; [exact H|]. split; [|reflexivity].
  exact (proj1 (totalAge_int_accumulator _ _ _ H)).
Defined.

(** C3, as stated, fails: on the empty roster [averageAge] returns normally,
    and what it returns is NaN. *)
Lemma averageAge_empty_counterexample :
  exists d,
    averageAge [] initial_state = Some (d, initial_state) /\
    Double.is_nan d = true.
Proof. exists S754_nan. split; reflexivity. Qed.

Section Claims.

Variable string_of_double : spec_float -> string.

(** C3, amended: on an empty roster [averageAge] raises no failure; it
    divides the [double] 0.0 by the count 0 and returns NaN, which
    [displayFamily] prints after the header line. *)
Theorem averageAge_empty_roster (st : state) :
  averageAge [] st = Some (S754_nan, st) /\
  displayFamily string_of_double [] st
  = Some (tt, {| heap := heap st;
                 cout := cout st +:+ "Family Members:" +:+ newline
                         +:+ "Average Age: " +:+ string_of_double S754_nan
                         +:+ newline |}).
Proof.
  split; [reflexivity|].
  now rewrite (run_displayFamily string_of_double [] st [] eq_refl).
Qed.

(** ** Rendering *)

(** C2: on a roster of N members, rendering writes the header line
    "Family Members:" and then exactly N lines, the i-th being
    "Type: <role>, Name: <name>, Age: <age>" for the i-th member in insertion
    order. *)
Theorem renderAll_lines (family : list ptr) (st : state) (ms : list Person) :
  members (heap st) family = Some ms ->
  renderAll family st
  = Some (tt, {| heap := heap st;
                 cout := cout st +:+ "Family Members:" +:+ newline
                         +:+ lines (map describe ms) |}) /\
  length (map describe ms) = length family /\
  forall (i : nat) (p : ptr),
    family !! i = Some p ->
    exists o, heap st !! p = Some o /\
              map describe ms !! i
              = Some ("Type: " +:+ type o +:+ ", Name: " +:+ name o
                      +:+ ", Age: " +:+ string_of_int (age o)).
Proof.
  intros Hms. split; [exact (run_renderAll _ _ _ Hms)|]. split.
  - rewrite length_map. exact (members_length _ _ _ Hms).
  - intros i p Hp.
    destruct (members_lookup _ _ _ _ _ Hms Hp) as (o & Ho & Hi).
    exists o. split; [exact Ho|]. rewrite list_lookup_fmap, Hi. reflexivity.
Qed.

(** C4: the roster [main] builds renders as the four expected lines and its
    average age is 30.0. *)
Theorem main_scenario :
  main_family initial_state = Some (driver_family, driver_state) /\
  members (heap driver_state) driver_family = Some driver_members /\
  renderAll driver_family driver_state
  = Some (tt, {| heap := heap driver_state;
                 cout := "Family Members:" +:+ newline
                         +:+ lines ["Type: Mother, Name: Alice, Age: 45";
                                    "Type: Father, Name: Bob, Age: 48";
                                    "Type: Daughter, Name: Charlotte, Age: 15";
                                    "Type: Son, Name: David, Age: 12"] |}) /\
  averageAge driver_family driver_state = Some (Double.of_Z 30, driver_state) /\
  (exists v, Double.value (Double.of_Z 30) = Some v /\ (v == 30)%Q) /\
  main string_of_double initial_state
  = Some (0, {| heap := ∅;
                cout := "Family Members:" +:+ newline
                        +:+ lines ["Type: Mother, Name: Alice, Age: 45";
                                   "Type: Father, Name: Bob, Age: 48";
                                   "Type: Daughter, Name: Charlotte, Age: 15";
                                   "Type: Son, Name: David, Age: 12"]
                        +:+ "Average Age: "
                        +:+ string_of_double (Double.of_Z 30) +:+ newline |}).
Proof.
  split; [vm_compute; reflexivity|]. split; [reflexivity|].
  split; [vm_compute; reflexivity|]. split; [vm_compute; reflexivity|].
  split; [eexists; split; [reflexivity | vm_compute; reflexivity]|].
  vm_compute. reflexivity.
Qed.

(** C5: the role a member is shown with is fixed by the class constructed,
    whatever name and age are supplied. *)
Theorem display_role_fixed (n : string) (a : Z) (st : state) :
  Forall (fun '(ctor, role) =>
            type (ctor n a) = role /\
            exists st',
              (p ← new (ctor n a); display p) st = Some (tt, st') /\
              cout st' = cout st +:+ "Type: " +:+ role +:+ ", Name: " +:+ n
                         +:+ ", Age: " +:+ string_of_int a +:+ newline)
         variants.
Proof.
  repeat constructor;
    match goal with
    | |- exists _, (_ ← new ?o; _) _ = _ /\ _ =>
        destruct (new_then_display o st) as (st' & E & Hc);
        exists st'; split; [exact E|];
        rewrite Hc; unfold describe; cbn [type name age];
        now rewrite !string_app_assoc
    end.
Qed.

(** C7: construction cannot fail and validates nothing.  For every name and
    age, each of the four constructors yields the object with exactly that
    name and age, [new] places it in the heap, and [getAge] and [display]
    on it give back the supplied values; an empty name and a zero or negative
    age are accepted like any other. *)
Theorem construction_total (n : string) (a : Z) (st : state) :
  Forall (fun '(ctor, role) =>
            ctor n a = {| type := role; name := n; age := a |} /\
            exists p st1,
              new (ctor n a) st = Some (p, st1) /\
              getAge p st1 = Some (a, st1) /\
              display p st1
              = Some (tt, {| heap := heap st1;
                             cout := cout st +:+ "Type: " +:+ role
                                     +:+ ", Name: " +:+ n +:+ ", Age: "
                                     +:+ string_of_int a +:+ newline |}))
         variants /\
  cout ∘ snd <$> (p ← new (Son EmptyString 0); display p) initial_state
  = Some ("Type: Son, Name: , Age: 0" +:+ newline) /\
  cout ∘ snd <$> (p ← new (Mother EmptyString (-45)); display p)
                   initial_state
  = Some ("Type: Mother, Name: , Age: -45" +:+ newline).
Proof.
  split; [|split; reflexivity].
  repeat constructor;
    match goal with
    | |- exists _ _, new ?o _ = _ /\ _ =>
        destruct (new_then_read o st) as (p & st1 & E & Hg & Hd);
        exists p, st1; split; [exact E|]; split; [exact Hg|];
        rewrite Hd; unfold describe; cbn [type name age];
        now rewrite !string_app_assoc
    end.
Qed.

(** ** Repeated queries *)

(** C6: on an unmodified roster every invocation of [renderAll] writes the
    same text and every invocation of [averageAge] returns the same value. *)
Theorem queries_repeatable (family : list ptr) (st : state) (ms : list Person) :
  members (heap st) family = Some ms ->
  exists (out : string) (d : spec_float),
    (forall st1, heap st1 = heap st ->
       renderAll family st1
       = Some (tt, {| heap := heap st; cout := cout st1 +:+ out |}) /\
       averageAge family st1 = Some (d, st1)) /\
    (renderAll family ;; renderAll family) st
    = Some (tt, {| heap := heap st; cout := cout st +:+ out +:+ out |}) /\
    (d1 ← averageAge family; d2 ← averageAge family; mret (d1, d2)) st
    = Some ((d, d), st).
Proof.
  intros Hms.
  exists ("Family Members:" +:+ newline +:+ lines (map describe ms)),
         (mean (Int32.wrap (sum_ages (map age ms))) (length family)).
  assert (Hall : forall st1, heap st1 = heap st ->
            renderAll family st1
            = Some (tt, {| heap := heap st;
                           cout := cout st1 +:+ "Family Members:" +:+ newline
                                   +:+ lines (map describe ms) |}) /\
            averageAge family st1
            = Some (mean (Int32.wrap (sum_ages (map age ms))) (length family),
                    st1)).
  { intros st1 Hh. rewrite <- Hh in Hms. split.
    - rewrite (run_renderAll _ _ _ Hms). now rewrite Hh.
    - exact (run_averageAge _ _ _ Hms). }
  split; [exact Hall|]. split.
  - rewrite (run_bind _ _ _ _ _ (proj1 (Hall st eq_refl))).
    match goal with
    | |- renderAll _ ?s = _ => rewrite (proj1 (Hall s eq_refl))
    end.
    cbn [heap cout]. now rewrite !string_app_assoc.
  - rewrite (run_bind _ _ _ _ _ (proj2 (Hall st eq_refl))).
    now rewrite (run_bind _ _ _ _ _ (proj2 (Hall st eq_refl))).
Qed.

(** ** Immutability and frame *)

(** [displayFamily] leaves the heap as it found it. *)
Lemma displayFamily_heap (family : list ptr) (st : state) r st' :
  displayFamily string_of_double family st = Some (r, st') ->
  heap st' = heap st.
Proof.
  intros H. destruct (displayFamily_defined _ _ _ _ _ H) as (ms & Hms).
  rewrite (run_displayFamily string_of_double _ _ _ Hms) in H.
  now injection H as _ <-.
Qed.

Lemma store_inv (p : ptr) (o : Person) (st : state) r st' :
  store p o st = Some (r, st') ->
  heap st' = <[p := o]> (heap st) /\ cout st' = cout st.
Proof.
  unfold store. destruct (heap st !! p); [|discriminate].
  intros [= _ <-]. now split.
Qed.

(** One operation leaves every object that it neither deletes, assigns to
    nor moves from where and as it was. *)
Lemma exec_preserves (o : op) (p : ptr) (obj : Person) (st : state) r st' :
  heap st !! p = Some obj -> writes o p = false ->
  exec string_of_double o st = Some (r, st') ->
  heap st' !! p = Some obj.
Proof.
  intros Hp Hw H.
  destruct o as [o'|q|q|family|q|q q'|q q' t n|q' t n];
    cbn [exec writes] in H, Hw;
    rewrite ?orb_false_iff, ?bool_decide_eq_false in Hw.
  - apply run_bind_inv in H as (q & st1 & H1 & H2).
    apply new_inv in H1 as (Hq & Hh & _). unfold_M. injection H2 as _ <-.
    rewrite Hh, lookup_insert_ne; [exact Hp | congruence].
  - apply display_inv in H as (o' & _ & ->). exact Hp.
  - apply run_bind_inv in H as (a & st1 & H1 & H2).
    apply getAge_inv in H1 as (o' & _ & _ & ->).
    unfold_M. now injection H2 as _ <-.
  - now rewrite (displayFamily_heap _ _ _ _ H).
  - apply delete_inv in H as [_ [-> | ->]]; [exact Hp|].
    rewrite lookup_delete_ne; [exact Hp | congruence].
  - unfold copy_assign in H. apply run_bind_inv in H as (o' & st1 & H1 & H2).
    apply load_inv in H1 as [_ ->]. apply store_inv in H2 as [-> _].
    rewrite lookup_insert_ne; [exact Hp | exact Hw].
  - destruct Hw as [Hq Hq']. unfold move_assign in H.
    apply run_bind_inv in H as (o' & st1 & H1 & H2).
    apply load_inv in H1 as [_ ->].
    apply run_bind_inv in H2 as (u & st2 & H2 & H3).
    apply store_inv in H2 as [Hh2 _].
    assert (Hp2 : heap st2 !! p = Some obj)
      by (rewrite Hh2, lookup_insert_ne; [exact Hp | exact Hq']).
    destruct (decide (q = q')).
    + unfold_M. now injection H3 as _ <-.
    + apply store_inv in H3 as [-> _].
      rewrite lookup_insert_ne; [exact Hp2 | exact Hq].
  - apply run_bind_inv in H as (q & st3 & H & H4).
    unfold_M. injection H4 as _ <-. unfold move_new in H.
    apply run_bind_inv in H as (o' & st1 & H1 & H2).
    apply load_inv in H1 as [_ ->].
    apply run_bind_inv in H2 as (u & st2 & H2 & H3).
    apply store_inv in H2 as [Hh2 _].
    assert (Hp2 : heap st2 !! p = Some obj)
      by (rewrite Hh2, lookup_insert_ne; [exact Hp | exact Hw]).
    apply new_inv in H3 as (Hq & Hh & _).
    rewrite Hh, lookup_insert_ne; [exact Hp2 | congruence].
Qed.

(** C8, amended: a member is immutable under every operation except the
    copy and move operations the language declares for [Person].  Through
    any sequence of constructions, [display], [getAge] and [displayFamily]
    calls, deletions, copy and move assignments and move constructions in
    which no operation deletes the member, assigns to it or moves from it,
    the object at the member's address keeps its role, name and age, so
    [getAge] and [display] on it give afterwards what they gave before. *)
Theorem member_immutable (ops : list op) (p : ptr) (obj : Person)
    (st st' : state) :
  heap st !! p = Some obj ->
  Forall (fun o => writes o p = false) ops ->
  for_each ops (exec string_of_double) st = Some (tt, st') ->
  heap st' !! p = Some obj /\
  getAge p st' = Some (age obj, st') /\
  display p st'
  = Some (tt, {| heap := heap st';
                 cout := cout st' +:+ describe obj +:+ newline |}).
Proof.
  intros Hp Hops Hrun.
  assert (H : heap st' !! p = Some obj).
  { revert st Hp Hrun. induction Hops as [|o ops Hw _ IH]; intros st Hp Hrun.
    - cbn in Hrun. unfold_M. now injection Hrun as <-.
    - cbn [for_each] in Hrun.
      apply run_bind_inv in Hrun as (u & st1 & H1 & H2).
      apply (IH st1); [|exact H2].
      exact (exec_preserves o p obj st u st1 Hp Hw H1). }
  split; [exact H|]. split; [now apply run_getAge | now apply run_display].
Qed.

(** C9: [displayFamily] is frame-preserving.  On every roster of live
    objects it returns, and afterwards the heap is the one it was called in:
    the roster designates the same members, as many, in the same order, with
    the same role, name and age. *)
Theorem displayFamily_frame (family : list ptr) (st : state)
    (ms : list Person) :
  members (heap st) family = Some ms ->
  exists st',
    displayFamily string_of_double family st = Some (tt, st') /\
    heap st' = heap st /\
    members (heap st') family = Some ms /\
    length ms = length family.
Proof.
  intros Hms. eexists. split; [exact (run_displayFamily _ _ _ _ Hms)|].
  cbn [heap]. split; [reflexivity|]. split; [exact Hms|].
  exact (members_length _ _ _ Hms).
Qed.

End Claims.

(** ** The claims on the sample rosters *)

Lemma renderAll_lines_witness :
  members (heap driver_state) driver_family = Some driver_members /\
  renderAll driver_family driver_state
  = Some (tt, {| heap := heap driver_state;
                 cout := cout driver_state +:+ "Family Members:" +:+ newline
                         +:+ lines (map describe driver_members) |}).
Proof.
  assert (H : members (heap driver_state) driver_family = Some driver_members)
    by reflexivity.
  split; [exact H | exact (proj1 (renderAll_lines _ _ _ H))].
Defined.

Lemma queries_repeatable_witness :
  members (heap driver_state) driver_family = Some driver_members /\
  exists (out : string) (d : spec_float),
    (renderAll driver_family ;; renderAll driver_family) driver_state
    = Some (tt, {| heap := heap driver_state;
                   cout := cout driver_state +:+ out +:+ out |}) /\
    (d1 ← averageAge driver_family; d2 ← averageAge driver_family;
     mret (d1, d2)) driver_state
    = Some ((d, d), driver_state).
Proof.
  assert (H : members (heap driver_state) driver_family = Some driver_members)
    by reflexivity.
  split; [exact H|].
  destruct (queries_repeatable _ _ _ H) as (out & d & _ & H1 & H2).
  exists out, d. split; [exact H1 | exact H2].
Defined.

Lemma member_immutable_witness :
  heap driver_state !! 1%N = Some (Mother "Alice" 45) /\
  Forall (fun o => writes o 1%N = false) sample_session /\
  exists st',
    for_each sample_session (exec sample_string_of_double) driver_state
    = Some (tt, st') /\
    heap st' !! 1%N = Some (Mother "Alice" 45) /\
    getAge 1%N st' = Some (45, st').
Proof.
  assert (H1 : heap driver_state !! 1%N = Some (Mother "Alice" 45))
    by reflexivity.
  assert (H2 : Forall (fun o => writes o 1%N = false) sample_session)
    by (repeat constructor).
  split; [exact H1|]. split; [exact H2|].
  eexists. split; [vm_compute; reflexivity|].
  refine (let H := member_immutable sample_string_of_double sample_session
                     1%N (Mother "Alice" 45) driver_state _ H1 H2 _ in _).
  - split; [exact (proj1 H) | exact (proj1 (proj2 H))].
  Unshelve. vm_compute; reflexivity.
Defined.

(** C8, as stated, fails: the copy assignment [*p = *q], which the language
    declares for [Person], overwrites a constructed member.  After
    [*family[0] = *family[1]] on the roster of [main], the first member, a
    [Mother] named Alice aged 45, shows and returns the role, name and age
    of the second. *)
Lemma member_copy_assign_counterexample :
  heap driver_state !! 1%N = Some (Mother "Alice" 45) /\
  exists st',
    exec sample_string_of_double (OpCopyAssign 1%N 2%N) driver_state
    = Some (tt, st') /\
    heap st' !! 1%N = Some (Father "Bob" 48) /\
    getAge 1%N st' = Some (48, st') /\
    cout ∘ snd <$> display 1%N st'
    = Some ("Type: Father, Name: Bob, Age: 48" +:+ newline).
Proof.
  split; [reflexivity|]. eexists. split; [vm_compute; reflexivity|].
  repeat split.
Qed.

Lemma displayFamily_frame_witness :
  members (heap driver_state) driver_family = Some driver_members /\
  exists st',
    displayFamily sample_string_of_double driver_family driver_state
    = Some (tt, st') /\
    heap st' = heap driver_state.
Proof.
  assert (H : members (heap driver_state) driver_family = Some driver_members)
    by reflexivity.
  split; [exact H|].
  destruct (displayFamily_frame sample_string_of_double _ _ _ H)
    as (st' & H1 & H2 & _).
  exists st'. split; [exact H1 | exact H2].
Defined.

(** * Further properties of the program *)

(** ** Releasing the roster *)

Lemma run_delete (p : ptr) (st : state) (o : Person) :
  p <> nullptr -> heap st !! p = Some o ->
  delete_ p st
  = Some (tt, {| heap := delete p (heap st); cout := cout st |}).
Proof.
  intros Hn Hp. unfold delete_. destruct (decide (p = nullptr)); [easy|].
  now rewrite Hp.
Qed.

Lemma delete_dangling (p : ptr) (st : state) :
  p <> nullptr -> heap st !! p = None -> delete_ p st = None.
Proof.
  intros Hn Hp. unfold delete_. destruct (decide (p = nullptr)); [easy|].
  now rewrite Hp.
Qed.

(** Where [delete] through a [Person*] releases the storage, the loop on a
    roster of distinct live objects releases the objects of the roster and
    touches neither the other objects nor the output. *)
Lemma release_effect (family : list ptr) (st : state) :
  nullptr ∉ family -> NoDup family ->
  (forall p, p ∈ family -> is_Some (heap st !! p)) ->
  exists st',
    release family st = Some (tt, st') /\
    cout st' = cout st /\
    forall q, heap st' !! q
              = if decide (q ∈ family) then None else heap st !! q.
Proof.
  revert st. induction family as [|p family IH]; intros st Hnull Hnd Hlive.
  - exists st. split; [reflexivity|]. split; [reflexivity|].
    intros q. destruct (decide (q ∈ [])) as [H|]; [|reflexivity].
    now apply elem_of_nil in H.
  - apply not_elem_of_cons in Hnull as [Hp Hnull].
    apply NoDup_cons in Hnd as [Hfresh Hnd].
    destruct (Hlive p) as [o Ho]; [apply elem_of_cons; now left|].
    destruct (IH {| heap := delete p (heap st); cout := cout st |} Hnull Hnd)
      as (st' & Hrun & Hc & Hh).
    { intros q Hq. cbn [heap]. rewrite lookup_delete_ne.
      - apply Hlive, elem_of_cons. now right.
      - intros ->. contradiction. }
    exists st'. split.
    + unfold release in *. cbn [for_each].
      rewrite (run_bind _ _ _ _ _ (run_delete p st o (not_eq_sym Hp) Ho)).
      exact Hrun.
    + split; [exact Hc|]. intros q. rewrite Hh. cbn [heap].
      destruct (decide (q ∈ family)) as [Hq|Hq];
        destruct (decide (q ∈ p :: family)) as [Hq'|Hq']; try reflexivity.
      * exfalso. apply Hq', elem_of_cons. now right.
      * apply elem_of_cons in Hq' as [->|Hq']; [|contradiction].
        apply lookup_delete_eq.
      * rewrite lookup_delete_ne; [reflexivity|].
        intros ->. apply Hq', elem_of_cons. now left.
Qed.

(** The loop returns in the model exactly when the non-null pointers of the
    roster are pairwise distinct and each points to a live object. *)
Lemma release_defined_iff (family : list ptr) (st : state) :
  is_Some (release family st) <->
  NoDup (filter (fun p => p <> nullptr) family) /\
  forall p, p ∈ family -> p <> nullptr -> is_Some (heap st !! p).
Proof.
  revert st. induction family as [|p family IH]; intros st.
  - split; [|intros _; now eexists].
    intros _. split; [constructor|]. intros p Hp. now apply elem_of_nil in Hp.
  - unfold release in *. cbn [for_each].
    destruct (decide (p = nullptr)) as [->|Hp].
    + rewrite filter_cons_False by (intros H; now apply H).
      assert (E : (delete_ nullptr ;; for_each family
                     (fun member => delete_ member)) st
                  = for_each family (fun member => delete_ member) st)
        by reflexivity.
      rewrite E, IH. split; intros [Hnd Hl]; (split; [exact Hnd|]).
      * intros q Hq Hn. apply elem_of_cons in Hq as [->|Hq]; [easy|].
        now apply Hl.
      * intros q Hq Hn. apply Hl; [|exact Hn]. apply elem_of_cons. now right.
    + rewrite filter_cons_True by exact Hp. rewrite NoDup_cons.
      rewrite list_elem_of_filter.
      destruct (heap st !! p) as [o|] eqn:Ho.
      * rewrite (run_bind _ _ _ _ _ (run_delete p st o Hp Ho)), IH.
        cbn [heap]. split.
        -- intros [Hnd Hl]. split; [split; [|exact Hnd]|].
           ++ intros [_ Hin]. destruct (Hl p Hin Hp) as [o' Ho'].
              now rewrite lookup_delete_eq in Ho'.
           ++ intros q Hq Hn. apply elem_of_cons in Hq as [->|Hq].
              ** now rewrite Ho.
              ** destruct (Hl q Hq Hn) as [o' Ho'].
                 destruct (decide (q = p)) as [->|Hne].
                 --- now rewrite lookup_delete_eq in Ho'.
                 --- rewrite lookup_delete_ne in Ho' by congruence.
                     now rewrite Ho'.
        -- intros [[Hnin Hnd] Hl]. split; [exact Hnd|].
           intros q Hq Hn.
           assert (Hne : p <> q) by (intros ->; apply Hnin; now split).
           rewrite lookup_delete_ne by exact Hne.
           apply Hl; [|exact Hn]. apply elem_of_cons. now right.
      * assert (E : (delete_ p ;; for_each family
                       (fun member => delete_ member)) st = None).
        { unfold mbind, M_bind. now rewrite (delete_dangling p st Hp Ho). }
        rewrite E. split.
        -- intros [x Hx]. discriminate.
        -- intros [_ Hl]. destruct (Hl p) as [o Ho']; [|exact Hp|congruence].
           apply elem_of_cons. now left.
Qed.

(** X2: the release loop is undefined whenever a non-null pointer is listed
    twice in the roster (a double [delete]) or a non-null pointer of the
    roster points to no live object (a [delete] of a dangling pointer). *)
Theorem release_undefined (family : list ptr) (st : state) :
  ~ NoDup (filter (fun p => p <> nullptr) family) \/
  (exists p, p ∈ family /\ p <> nullptr /\ heap st !! p = None) ->
  release family st = None.
Proof.
  intros Hbad. destruct (release family st) as [r|] eqn:E; [exfalso|easy].
  assert (Hdef : is_Some (release family st)) by (rewrite E; now eexists).
  apply release_defined_iff in Hdef as [Hnd Hlive].
  destruct Hbad as [Hdup | (p & Hp & Hn & Hdead)]; [now apply Hdup|].
  destruct (Hlive p Hp Hn) as [o Ho]. congruence.
Qed.

Lemma release_undefined_witness :
  ~ NoDup (filter (fun p => p <> nullptr) [1%N; 2%N; 1%N]) /\
  release [1%N; 2%N; 1%N] driver_state = None.
Proof.
  assert (H : ~ NoDup (filter (fun p => p <> nullptr) [1%N; 2%N; 1%N]))
    by (apply (bool_decide_unpack _); vm_compute; exact I).
  split; [exact H|].
  exact (release_undefined [1%N; 2%N; 1%N] driver_state (or_introl H)).
Defined.

(** ** Rosters with dangling pointers *)

Lemma members_defined_iff (h : gmap N Person) (family : list ptr) :
  is_Some (members h family) <-> forall p, p ∈ family -> is_Some (h !! p).
Proof.
  induction family as [|p family IH]; cbn [members].
  - split; [|now eexists]. intros _ p Hp. now apply elem_of_nil in Hp.
  - destruct (h !! p) as [o|] eqn:Ho.
    + destruct (members h family) as [os|] eqn:Hos.
      * split; [|now eexists]. intros _ q Hq.
        apply elem_of_cons in Hq as [->|Hq]; [now rewrite Ho|].
        now apply (proj1 IH).
      * split; [intros [x Hx]; discriminate|]. intros H.
        destruct (proj2 IH) as [x Hx]; [|discriminate].
        intros q Hq. apply H, elem_of_cons. now right.
    + split; [intros [x Hx]; discriminate|]. intros H.
      destruct (H p) as [x Hx]; [apply elem_of_cons; now left|congruence].
Qed.

Lemma totalAge_undefined (family : list ptr) (st : state) :
  members (heap st) family = None -> totalAge family st = None.
Proof.
  intros Hms. destruct (totalAge family st) as [[r st']|] eqn:E; [|easy].
  apply for_each_acc_age_defined in E as [_ (ms & Hms')]. congruence.
Qed.

Lemma averageAge_undefined (family : list ptr) (st : state) :
  members (heap st) family = None -> averageAge family st = None.
Proof.
  intros Hms. destruct (averageAge family st) as [[r st']|] eqn:E; [|easy].
  destruct (averageAge_defined _ _ _ _ E) as (ms & Hms'). congruence.
Qed.

Section Further.

Variable string_of_double : spec_float -> string.

(** [displayFamily] returns in the model exactly on the rosters whose every
    element points to a live object. *)
Lemma displayFamily_defined_iff (family : list ptr) (st : state) :
  is_Some (displayFamily string_of_double family st) <->
  forall p, p ∈ family -> is_Some (heap st !! p).
Proof.
  rewrite <- members_defined_iff. split.
  - intros [[r st'] H].
    destruct (displayFamily_defined _ _ _ _ _ H) as (ms & Hms).
    now rewrite Hms.
  - intros [ms Hms]. rewrite (run_displayFamily _ _ _ _ Hms). now eexists.
Qed.

(** X3: [displayFamily] is undefined whenever some element of the roster
    points to no live object (a deleted object, an address never allocated,
    or the null pointer in a state with no object at the null address),
    whatever the other elements are. *)
Theorem displayFamily_dangling (family : list ptr) (st : state) (p : ptr) :
  p ∈ family -> heap st !! p = None ->
  displayFamily string_of_double family st = None.
Proof.
  intros Hp Hdead.
  destruct (displayFamily string_of_double family st) as [r|] eqn:E;
    [exfalso | reflexivity].
  assert (Hdef : is_Some (displayFamily string_of_double family st))
    by (rewrite E; now eexists).
  destruct (proj1 (displayFamily_defined_iff _ _) Hdef p Hp) as [o Ho].
  congruence.
Qed.

End Further.

Lemma displayFamily_dangling_witness :
  (nullptr ∈ [1%N; nullptr; 2%N]) /\ heap driver_state !! nullptr = None /\
  displayFamily sample_string_of_double [1%N; nullptr; 2%N] driver_state
  = None.
Proof.
  assert (H1 : nullptr ∈ [1%N; nullptr; 2%N])
    by (apply (bool_decide_unpack _); vm_compute; exact I).
  assert (H2 : heap driver_state !! nullptr = None) by reflexivity.
  split; [exact H1|]. split; [exact H2|].
  exact (displayFamily_dangling sample_string_of_double _ _ _ H1 H2).
Defined.

(** ** Order and growth of the roster *)

Lemma fold_left_add_acc (ages : list Z) : forall acc,
  fold_left Z.add ages acc = acc + sum_ages ages.
Proof.
  unfold sum_ages. induction ages as [|a ages IH]; intros acc; cbn [fold_left].
  - lia.
  - rewrite (IH (acc + a)), (IH (0 + a)). lia.
Qed.

Lemma sum_ages_cons (a : Z) (ages : list Z) :
  sum_ages (a :: ages) = a + sum_ages ages.
Proof. unfold sum_ages at 1. cbn [fold_left]. apply fold_left_add_acc. Qed.

Lemma sum_ages_app (l1 l2 : list Z) :
  sum_ages (l1 ++ l2) = sum_ages l1 + sum_ages l2.
Proof.
  induction l1 as [|a l1 IH]; [reflexivity|].
  cbn [app]. rewrite !sum_ages_cons, IH. lia.
Qed.

Lemma sum_ages_perm (l1 l2 : list Z) :
  l1 ≡ₚ l2 -> sum_ages l1 = sum_ages l2.
Proof.
  induction 1 as [|a l1 l2 _ IH|a b l|l1 l2 l3 _ IH1 _ IH2].
  - reflexivity.
  - now rewrite !sum_ages_cons, IH.
  - rewrite !sum_ages_cons. lia.
  - now rewrite IH1.
Qed.

Lemma members_perm (h : gmap N Person) (family family' : list ptr) :
  family ≡ₚ family' ->
  forall ms, members h family = Some ms ->
  exists ms', members h family' = Some ms' /\ ms ≡ₚ ms'.
Proof.
  induction 1 as [|p l1 l2 _ IH|p q l|l1 l2 l3 _ IH1 _ IH2]; intros ms Hms.
  - exists ms. now split.
  - apply members_cons in Hms as (o & os & Ho & Hos & ->).
    destruct (IH os Hos) as (os' & Hos' & Hperm).
    exists (o :: os'). cbn [members]. rewrite Ho, Hos'.
    split; [reflexivity | now constructor].
  - apply members_cons in Hms as (oq & os' & Hq & Hos' & ->).
    apply members_cons in Hos' as (op & os & Hp & Hos & ->).
    exists (op :: oq :: os). cbn [members]. rewrite Hp, Hq, Hos.
    split; [reflexivity | apply perm_swap].
  - destruct (IH1 ms Hms) as (ms2 & H2 & P2).
    destruct (IH2 ms2 H2) as (ms3 & H3 & P3).
    exists ms3. split; [exact H3 | now transitivity ms2].
Qed.

(** X4: the total and the average do not depend on the order of the roster:
    two rosters that list the same pointers in different orders have the same
    [totalAge] and the same [averageAge] (also when the sum wraps, and also
    when both are undefined). *)
Theorem averageAge_permutation (family family' : list ptr) (st : state) :
  family ≡ₚ family' ->
  totalAge family st = totalAge family' st /\
  averageAge family st = averageAge family' st.
Proof.
  intros Hperm. destruct (members (heap st) family) as [ms|] eqn:Hms.
  - destruct (members_perm _ _ _ Hperm ms Hms) as (ms' & Hms' & Hp).
    rewrite (run_totalAge _ _ _ Hms), (run_totalAge _ _ _ Hms').
    rewrite (run_averageAge _ _ _ Hms), (run_averageAge _ _ _ Hms').
    rewrite (sum_ages_perm (map age ms) (map age ms'))
      by (now apply fmap_Permutation).
    now rewrite (Permutation_length Hperm).
  - assert (Hms' : members (heap st) family' = None).
    { destruct (members (heap st) family') as [ms'|] eqn:E; [|reflexivity].
      symmetry in Hperm.
      destruct (members_perm _ _ _ Hperm ms' E) as (ms & H & _). congruence. }
    now rewrite !averageAge_undefined, !totalAge_undefined by assumption.
Qed.

Lemma averageAge_permutation_witness :
  [2%N; 1%N; 3%N; 4%N] ≡ₚ driver_family /\
  averageAge [2%N; 1%N; 3%N; 4%N] driver_state
  = averageAge driver_family driver_state.
Proof.
  assert (H : [2%N; 1%N; 3%N; 4%N] ≡ₚ driver_family) by apply perm_swap.
  split; [exact H | exact (proj2 (averageAge_permutation _ _ driver_state H))].
Defined.

Lemma members_app (h : gmap N Person) (l1 l2 : list ptr) ms1 ms2 :
  members h l1 = Some ms1 -> members h l2 = Some ms2 ->
  members h (l1 ++ l2) = Some (ms1 ++ ms2).
Proof.
  revert ms1. induction l1 as [|p l1 IH]; intros ms1 H1 H2.
  - injection H1 as <-. exact H2.
  - apply members_cons in H1 as (o & os & Ho & Hos & ->).
    cbn [app members]. now rewrite Ho, (IH os Hos H2).
Qed.

(** X5: [push_back] of a pointer to a live object extends the rendering by
    that object's line, after all the others, and adds its age to the total
    in [int] arithmetic. *)
Theorem push_back_member (family : list ptr) (p : ptr) (st : state)
    (ms : list Person) (o : Person) :
  members (heap st) family = Some ms ->
  heap st !! p = Some o ->
  members (heap st) (push_back family p) = Some (ms ++ [o]) /\
  renderAll (push_back family p) st
  = Some (tt, {| heap := heap st;
                 cout := cout st +:+ "Family Members:" +:+ newline
                         +:+ lines (map describe ms)
                         +:+ describe o +:+ newline |}) /\
  totalAge (push_back family p) st
  = Some (Int32.add (Int32.wrap (sum_ages (map age ms))) (age o), st).
Proof.
  intros Hms Hp.
  assert (Hms' : members (heap st) (push_back family p) = Some (ms ++ [o])).
  { apply members_app; [exact Hms|]. cbn [members]. now rewrite Hp. }
  split; [exact Hms'|]. split.
  - rewrite (run_renderAll _ _ _ Hms'). rewrite map_app, lines_app.
    reflexivity.
  - rewrite (run_totalAge _ _ _ Hms'). rewrite map_app, sum_ages_app.
    cbn [map]. rewrite sum_ages_cons. unfold Int32.add.
    rewrite Int32Facts.wrap_add_l. do 3 f_equal. unfold sum_ages. cbn. lia.
Qed.

Lemma push_back_member_witness :
  members (heap driver_state) [1%N; 2%N]
  = Some [Mother "Alice" 45; Father "Bob" 48] /\
  heap driver_state !! 4%N = Some (Son "David" 12) /\
  totalAge (push_back [1%N; 2%N] 4%N) driver_state
  = Some (105, driver_state).
Proof.
  assert (H1 : members (heap driver_state) [1%N; 2%N]
               = Some [Mother "Alice" 45; Father "Bob" 48]) by reflexivity.
  assert (H2 : heap driver_state !! 4%N = Some (Son "David" 12))
    by reflexivity.
  split; [exact H1|]. split; [exact H2|].
  exact (proj2 (proj2 (push_back_member _ _ _ _ _ H1 H2))).
Defined.

(** ** Overflow and NaN *)

Lemma sum_ages_bounds (ms : list Person) (lo hi : Z) :
  Forall (fun o => lo <= age o <= hi) ms ->
  Z.of_nat (length ms) * lo <= sum_ages (map age ms)
  <= Z.of_nat (length ms) * hi.
Proof.
  induction 1 as [|o ms Ho _ IH]; [cbn; lia|].
  cbn [map length]. rewrite sum_ages_cons, Nat2Z.inj_succ, !Z.mul_succ_l. lia.
Qed.

Lemma members_take (h : gmap N Person) (family : list ptr) (k : nat) :
  forall ms, members h family = Some ms ->
  members h (take k family) = Some (take k ms).
Proof.
  revert k. induction family as [|p family IH]; intros k ms Hms.
  - injection Hms as <-. now destruct k.
  - apply members_cons in Hms as (o & os & Ho & Hos & ->).
    destruct k as [|k]; [reflexivity|].
    cbn [take members]. now rewrite Ho, (IH k os Hos).
Qed.

(** The loop over a roster passes through the total of each of its
    prefixes. *)
Lemma for_each_acc_app {A B} (l1 l2 : list A) (body : B -> A -> M B) :
  forall (acc : B) (st : state),
  for_each_acc (l1 ++ l2) acc body st
  = (t ← for_each_acc l1 acc body; for_each_acc l2 t body) st.
Proof.
  induction l1 as [|x l1 IH]; intros acc st; [reflexivity|].
  cbn [app for_each_acc]. unfold mbind, M_bind.
  destruct (body acc x st) as [[acc' st']|]; [|reflexivity]. apply IH.
Qed.

(** X6: when every age lies between [lo] and [hi] and the count times each
    bound is a valid [int], no addition of the accumulation wraps: after
    every number [k] of iterations the running total, which is [totalAge] of
    the first [k] members, is the exact sum of their ages and a valid [int],
    and adding the next age to it gives the exact sum.  So the final total
    is the exact sum, between count * lo and count * hi. *)
Theorem totalAge_bounded_ages (family : list ptr) (st : state)
    (ms : list Person) (lo hi : Z) :
  members (heap st) family = Some ms ->
  Forall (fun o => lo <= age o <= hi) ms ->
  Int32.in_range (Z.of_nat (length family) * lo) ->
  Int32.in_range (Z.of_nat (length family) * hi) ->
  totalAge family st = Some (sum_ages (map age ms), st) /\
  Z.of_nat (length family) * lo <= sum_ages (map age ms)
  <= Z.of_nat (length family) * hi /\
  forall k : nat, (k <= length family)%nat ->
    let running := sum_ages (map age (take k ms)) in
    totalAge family st
    = (t ← totalAge (take k family);
       for_each_acc (drop k family) t add_age) st /\
    totalAge (take k family) st = Some (running, st) /\
    Int32.in_range running /\
    forall o, ms !! k = Some o ->
              Int32.add running (age o) = running + age o.
Proof.
  intros Hms Hages Hlo Hhi.
  pose proof (members_length _ _ _ Hms) as Hlen.
  assert (Hprefix : forall k : nat, (k <= length family)%nat ->
            Int32.in_range (sum_ages (map age (take k ms)))).
  { intros k Hk.
    pose proof (sum_ages_bounds (take k ms) lo hi (Forall_take _ k _ Hages))
      as Hb.
    rewrite length_take, Hlen, Nat.min_l in Hb by exact Hk.
    apply Nat2Z.inj_le in Hk. pose proof (Nat2Z.is_nonneg k) as Hkz.
    revert Hb Hk Hkz Hlo Hhi.
    generalize (Z.of_nat k) (Z.of_nat (length family)).
    intros kz n Hb Hk Hkz Hlo Hhi.
    unfold Int32.in_range, Int32.min_signed, Int32.max_signed,
      Int32.half_modulus in *.
    assert (Hl : - 2 ^ 31 <= kz * lo).
    { destruct (Z.le_gt_cases 0 lo).
      - assert (0 <= kz * lo) by (apply Z.mul_nonneg_nonneg; lia). lia.
      - assert (n * lo <= kz * lo)
          by (apply Z.mul_le_mono_nonpos_r; lia). lia. }
    assert (Hu : kz * hi <= 2 ^ 31 - 1).
    { destruct (Z.le_gt_cases hi 0).
      - assert (kz * hi <= 0) by (apply Z.mul_nonneg_nonpos; lia). lia.
      - assert (kz * hi <= n * hi)
          by (apply Z.mul_le_mono_nonneg_r; lia). lia. }
    lia. }
  assert (Hfull : take (length family) ms = ms)
    by (apply take_ge; lia).
  pose proof (sum_ages_bounds ms lo hi Hages) as Hb. rewrite Hlen in Hb.
  split; [|split; [exact Hb|]].
  - rewrite (run_totalAge _ _ _ Hms), Int32Facts.wrap_id; [reflexivity|].
    rewrite <- Hfull. now apply Hprefix.
  - intros k Hk running. split; [|split; [|split]].
    + unfold totalAge. rewrite <- (for_each_acc_app (take k family)).
      now rewrite take_drop.
    + rewrite (run_totalAge _ _ _ (members_take _ _ k _ Hms)).
      now rewrite Int32Facts.wrap_id by now apply Hprefix.
    + now apply Hprefix.
    + intros o Ho. unfold Int32.add. apply Int32Facts.wrap_id.
      assert (Hk' : (S k <= length family)%nat).
      { apply lookup_lt_Some in Ho. lia. }
      pose proof (Hprefix (S k) Hk') as Hr.
      rewrite (take_S_r _ _ _ Ho), map_app, sum_ages_app in Hr.
      cbn [map] in Hr. rewrite sum_ages_cons in Hr.
      replace (sum_ages []) with 0 in Hr by reflexivity.
      now rewrite Z.add_0_r in Hr.
Qed.

Lemma totalAge_bounded_ages_witness :
  members (heap driver_state) driver_family = Some driver_members /\
  Forall (fun o => 0 <= age o <= 150) driver_members /\
  totalAge driver_family driver_state = Some (120, driver_state).
Proof.
  assert (H1 : members (heap driver_state) driver_family
               = Some driver_members) by reflexivity.
  assert (H2 : Forall (fun o => 0 <= age o <= 150) driver_members)
    by (repeat constructor; cbn; lia).
  assert (H3 : Int32.in_range (Z.of_nat (length driver_family) * 0))
    by (vm_compute; split; discriminate).
  assert (H4 : Int32.in_range (Z.of_nat (length driver_family) * 150))
    by (vm_compute; split; discriminate).
  split; [exact H1|]. split; [exact H2|].
  exact (proj1 (totalAge_bounded_ages _ _ _ _ _ H1 H2 H3 H4)).
Defined.

(** X7: NaN is the result of the empty roster only.  On a roster of live
    objects with fewer than 2^53 members, [averageAge] returns NaN exactly
    when the roster is empty; on every other roster it returns a finite
    [double], whatever the ages are. *)
Theorem averageAge_nan_iff_empty (family : list ptr) (st : state)
    (ms : list Person) :
  members (heap st) family = Some ms ->
  Z.of_nat (length family) < 2 ^ 53 ->
  exists d,
    averageAge family st = Some (d, st) /\
    (Double.is_nan d = true <-> family = []) /\
    (family <> [] -> is_Some (Double.value d)).
Proof.
  intros Hms Hlen. eexists. split; [exact (run_averageAge _ _ _ Hms)|].
  destruct family as [|p family].
  - injection Hms as <-. split; [now split|]. intros H. now contradiction H.
  - assert (Ha : Double.approximates
                   (mean (Int32.wrap (sum_ages (map age ms)))
                         (length (p :: family)))
                   (inject_Z (Int32.wrap (sum_ages (map age ms)))
                    / inject_Z (Z.of_nat (length (p :: family))))).
    { apply DoubleFacts.mean_accurate.
      - pose proof (Int32Facts.wrap_range (sum_ages (map age ms))) as Hw.
        unfold Int32.in_range, Int32.min_signed, Int32.max_signed,
          Int32.half_modulus in Hw. lia.
      - cbn [length] in *. lia. }
    destruct Ha as (v & Hv & _). rewrite Hv.
    split; [|intros _; now eexists]. split; [|discriminate].
    intros Hnan. revert Hv Hnan.
    destruct (mean _ _); cbn [Double.value Double.is_nan]; discriminate.
Qed.

Lemma averageAge_nan_iff_empty_witness :
  members (heap overflow_state) overflow_family = Some overflow_members /\
  Z.of_nat (length overflow_family) < 2 ^ 53 /\
  exists d,
    averageAge overflow_family overflow_state = Some (d, overflow_state) /\
    is_Some (Double.value d).
Proof.
  assert (H1 : members (heap overflow_state) overflow_family
               = Some overflow_members) by reflexivity.
  assert (H2 : Z.of_nat (length overflow_family) < 2 ^ 53) by reflexivity.
  split; [exact H1|]. split; [exact H2|].
  destruct (averageAge_nan_iff_empty _ _ _ H1 H2) as (d & Hd & _ & Hv).
  exists d. split; [exact Hd | apply Hv; discriminate].
Defined.

(** ** Exact averages *)

Module DoubleExact.
Import Double DoubleFacts.

(** A quotient that fits in 53 bits is delivered as it is. *)
Lemma div_finite_exact sx sy (mx my M : positive) ex ey c :
  2 ^ 52 <= Z.pos mx < 2 ^ 53 -> 2 ^ 52 <= Z.pos my < 2 ^ 53 ->
  -1021 <= ex - ey <= 1022 ->
  2 ^ 52 <= Z.pos M < 2 ^ 53 -> c = 0 \/ c = 1 ->
  Z.pos mx * 2 ^ 53 = Z.pos M * 2 ^ c * Z.pos my ->
  div (S754_finite sx mx ex) (S754_finite sy my ey)
  = S754_finite (xorb sx sy) M (ex - ey - 53 + c).
Proof.
  intros Hx Hy He HM Hc Hq. unfold div, SFdiv.
  rewrite div_core by (assumption || lia).
  rewrite Hq, Z.div_mul, Z.mod_mul by lia.
  rewrite new_location_spec by lia. cbn [Z.eqb].
  rewrite binary_round_aux_finish. destruct Hc as [-> | ->].
  - rewrite Z.pow_0_r, Z.mul_1_r, Z.add_0_r.
    rewrite shr_fexp_53 by lia. cbn [shr_record_of_loc shr_m
                                      loc_of_shr_record round_nearest_even].
    now rewrite finish_53 by lia.
  - replace (Z.pos M * 2 ^ 1) with (Z.pos M~0) by lia.
    rewrite shr_fexp_54 by lia.
    cbn [shr_record_of_loc shr_1 orb shr_m loc_of_shr_record
         round_nearest_even].
    now rewrite finish_53 by lia.
Qed.

(** The bit length of a product is the sum of the bit lengths, or one less. *)
Lemma digits2_pos_mul (x y : positive) :
  let d := Z.pos (digits2_pos x) + Z.pos (digits2_pos y)
           - Z.pos (digits2_pos (x * y)) in
  d = 0 \/ d = 1.
Proof.
  pose proof (digits2_pos_bounds x) as [Xl Xu].
  pose proof (digits2_pos_bounds y) as [Yl Yu].
  pose proof (digits2_pos_bounds (x * y)) as [Pl Pu].
  rewrite Pos2Z.inj_mul in Pl, Pu.
  set (dx := Z.pos (digits2_pos x)) in *.
  set (dy := Z.pos (digits2_pos y)) in *.
  set (dp := Z.pos (digits2_pos (x * y))) in *.
  assert (0 < dx /\ 0 < dy /\ 0 < dp) as (Hx & Hy & Hp)
    by (subst dx dy dp; lia).
  assert (Hlo : 2 ^ (dx + dy - 2) <= Z.pos x * Z.pos y).
  { replace (dx + dy - 2) with ((dx - 1) + (dy - 1)) by lia.
    rewrite Z.pow_add_r by lia.
    apply Z.mul_le_mono_nonneg; try assumption; apply Z.pow_nonneg; lia. }
  assert (Hhi : Z.pos x * Z.pos y < 2 ^ (dx + dy)).
  { rewrite Z.pow_add_r by lia. apply Z.mul_lt_mono_nonneg; lia. }
  assert (H1 : dx + dy - 2 < dp)
    by (apply (Z.pow_lt_mono_r_iff 2); lia).
  assert (H2 : dp - 1 < dx + dy)
    by (apply (Z.pow_lt_mono_r_iff 2); lia).
  cbv zeta. lia.
Qed.

Lemma div_normal_exact sx (n a : positive) :
  Z.pos (n * a) < 2 ^ 53 ->
  div (normal sx (n * a)) (normal false n) = normal sx a.
Proof.
  intros HA.
  assert (Hn : Z.pos n < 2 ^ 53) by (rewrite Pos2Z.inj_mul in HA; nia).
  assert (Ha : Z.pos a < 2 ^ 53) by (rewrite Pos2Z.inj_mul in HA; nia).
  destruct (normal_mantissa (n * a) HA) as (HdA & EA & BA).
  destruct (normal_mantissa n Hn) as (Hdn & En & Bn).
  destruct (normal_mantissa a Ha) as (Hda & Ea & Ba).
  pose proof (digits2_pos_mul n a) as Hc. cbv zeta in Hc.
  unfold normal.
  set (dA := Z.pos (digits2_pos (n * a))) in *.
  set (dn := Z.pos (digits2_pos n)) in *.
  set (da := Z.pos (digits2_pos a)) in *.
  rewrite (div_finite_exact sx false _ _
             (Z.to_pos (Z.pos a * 2 ^ (53 - da))) _ _ (dn + da - dA));
    try lia.
  - rewrite xorb_false_r. f_equal. lia.
  - rewrite EA, En, Ea, Pos2Z.inj_mul.
    assert (Hpow : 2 ^ (53 - dA) * 2 ^ 53
                   = 2 ^ (53 - da) * 2 ^ (dn + da - dA) * 2 ^ (53 - dn)).
    { rewrite <- !Z.pow_add_r by lia. f_equal. lia. }
    replace (Z.pos n * Z.pos a * 2 ^ (53 - dA) * 2 ^ 53)
      with (Z.pos n * Z.pos a * (2 ^ (53 - dA) * 2 ^ 53)) by ring.
    rewrite Hpow. ring.
Qed.

(** An integer that is a multiple of the count is divided exactly. *)
Lemma mean_exact (a : Z) (count : nat) :
  1 <= Z.of_nat count < 2 ^ 53 ->
  Z.abs (Z.of_nat count * a) < 2 ^ 53 ->
  mean (Z.of_nat count * a) count = of_Z a.
Proof.
  intros Hc Ha. unfold mean.
  destruct (Z.of_nat count) as [|n|n]; try lia.
  rewrite (of_Z_pos n) by lia. destruct a as [|a|a].
  - reflexivity.
  - change (Z.pos n * Z.pos a) with (Z.pos (n * a)) in *.
    rewrite !of_Z_pos by (rewrite ?Pos2Z.inj_mul in *; nia).
    apply div_normal_exact. lia.
  - change (Z.pos n * Z.neg a) with (Z.neg (n * a)) in *.
    rewrite !of_Z_neg by (rewrite ?Pos2Z.inj_mul in *; nia).
    apply div_normal_exact. lia.
Qed.

(** The conversion of an integer of at most 53 bits is exact. *)
Lemma of_Z_value (z : Z) :
  Z.abs z < 2 ^ 53 ->
  exists v, value (of_Z z) = Some v /\ (v == inject_Z z)%Q.
Proof.
  intros Hz.
  assert (Hnorm : forall sx (m : positive), Z.pos m < 2 ^ 53 ->
            exists v, value (normal sx m) = Some v /\
                      (v == inject_Z (cond_Zopp sx (Z.pos m)))%Q).
  { intros sx m Hm. destruct (normal_mantissa m Hm) as (Hd & E & _).
    eexists. split; [reflexivity|].
    set (d := Z.pos (digits2_pos m)) in *.
    assert (Hp : 0 < 2 ^ (53 - d)) by (apply Z.pow_pos_nonneg; lia).
    replace (d - 53) with (0 - (53 - d)) by lia.
    rewrite Qpower2_diff by lia. rewrite !cond_Zopp_Q, E, inject_Z_mult.
    assert (Hne : ~ (inject_Z (2 ^ (53 - d)) == 0)%Q).
    { unfold Qeq, inject_Z. cbn [Qnum Qden]. lia. }
    change (inject_Z (2 ^ 0)) with 1%Q.
    destruct sx; field; exact Hne. }
  destruct z as [|m|m].
  - exists 0%Q. now split.
  - rewrite of_Z_pos by lia. apply (Hnorm false). lia.
  - rewrite of_Z_neg by lia. apply (Hnorm true). lia.
Qed.

End DoubleExact.

(** X9: when the count divides the age sum and the sum is a valid [int], the
    average carries no rounding error: [averageAge] returns exactly the
    [double] of the integer quotient. *)
Theorem averageAge_exact_quotient (family : list ptr) (st : state)
    (ms : list Person) (a : Z) :
  members (heap st) family = Some ms ->
  1 <= Z.of_nat (length family) < 2 ^ 53 ->
  sum_ages (map age ms) = Z.of_nat (length family) * a ->
  Int32.in_range (Z.of_nat (length family) * a) ->
  averageAge family st = Some (Double.of_Z a, st) /\
  exists v, Double.value (Double.of_Z a) = Some v /\ (v == inject_Z a)%Q.
Proof.
  intros Hms Hn Hsum Hr.
  assert (Hb : Z.abs (Z.of_nat (length family) * a) < 2 ^ 31 + 1).
  { unfold Int32.in_range, Int32.min_signed, Int32.max_signed,
      Int32.half_modulus in Hr. lia. }
  split.
  - rewrite (run_averageAge _ _ _ Hms), Hsum, Int32Facts.wrap_id by exact Hr.
    rewrite DoubleExact.mean_exact; [reflexivity | exact Hn | lia].
  - apply DoubleExact.of_Z_value. nia.
Qed.

Lemma averageAge_exact_quotient_witness :
  members (heap driver_state) driver_family = Some driver_members /\
  1 <= Z.of_nat (length driver_family) < 2 ^ 53 /\
  sum_ages (map age driver_members) = Z.of_nat (length driver_family) * 30 /\
  Int32.in_range (Z.of_nat (length driver_family) * 30) /\
  averageAge driver_family driver_state = Some (Double.of_Z 30, driver_state).
Proof.
  assert (H1 : members (heap driver_state) driver_family
               = Some driver_members) by reflexivity.
  assert (H2 : 1 <= Z.of_nat (length driver_family) < 2 ^ 53)
    by (vm_compute; split; [discriminate | reflexivity]).
  assert (H3 : sum_ages (map age driver_members)
               = Z.of_nat (length driver_family) * 30) by reflexivity.
  assert (H4 : Int32.in_range (Z.of_nat (length driver_family) * 30))
    by (vm_compute; split; discriminate).
  split; [exact H1|]. split; [exact H2|]. split; [exact H3|].
  split; [exact H4|].
  exact (proj1 (averageAge_exact_quotient _ _ _ 30 H1 H2 H3 H4)).
Defined.

(** ** After the release *)

Section AfterRelease.

Variable string_of_double : spec_float -> string.

(** X10: once the release loop has run, the roster dangles: calling
    [displayFamily] again on a non-empty roster that was released is
    undefined (a use after [delete]). *)
Theorem displayFamily_after_release (family : list ptr) (st : state) :
  family <> [] -> nullptr ∉ family -> NoDup family ->
  (forall p, p ∈ family -> is_Some (heap st !! p)) ->
  is_Some (release family st) /\
  (release family ;; displayFamily string_of_double family) st = None.
Proof.
  intros Hne Hnull Hnd Hlive.
  destruct (release_effect family st Hnull Hnd Hlive) as (st' & Hrel & _ & Hh).
  split; [rewrite Hrel; now eexists|].
  rewrite (run_bind _ _ _ _ _ Hrel).
  destruct (displayFamily string_of_double family st') as [r|] eqn:E;
    [exfalso | reflexivity].
  assert (Hdef : is_Some (displayFamily string_of_double family st'))
    by (rewrite E; now eexists).
  destruct family as [|p family]; [now apply Hne|].
  assert (Hp : p ∈ p :: family) by (apply elem_of_cons; now left).
  destruct (proj1 (displayFamily_defined_iff _ _ _) Hdef p Hp) as [o Ho].
  rewrite Hh in Ho.
  case_decide; [discriminate | contradiction].
Qed.

End AfterRelease.

Lemma displayFamily_after_release_witness :
  driver_family <> [] /\
  (release driver_family ;;
   displayFamily sample_string_of_double driver_family) driver_state = None.
Proof.
  assert (H0 : driver_family <> []) by discriminate.
  assert (H1 : nullptr ∉ driver_family)
    by (apply (bool_decide_unpack _); vm_compute; exact I).
  assert (H2 : NoDup driver_family)
    by (apply (bool_decide_unpack _); vm_compute; exact I).
  assert (H3 : forall p, p ∈ driver_family ->
                         is_Some (heap driver_state !! p)).
  { apply members_defined_iff. now eexists. }
  split; [exact H0|].
  exact (proj2 (displayFamily_after_release sample_string_of_double
                  driver_family driver_state H0 H1 H2 H3)).
Defined.
